(** * next-middleware-toolkit: routing, priority and the request pipeline

    A shallow embedding of

    - [utils/priority.ts] ([calculatePriority], [matchRoute],
      [extractParams]; the sources at hand carry it in [src/index.ts]),
    - [core/middleware-builder.ts] (the route table, the plugin hooks and
      the handler returned by [build]),
    - [legacy/middleware.ts] (the legacy matcher),

    followed by the properties of the specification stated over it.

    JavaScript strings are modelled by [string]; every operation used by the
    sources ([split], [startsWith], [endsWith], [slice], [includes], [===])
    works position by position, so the alphabet plays no role.  Numbers are
    the small integers the code computes, modelled by [Z].  Objects used as
    dictionaries ([Record<string, string>]) are finite maps [gmap string _];
    their keys are assumed to be ordinary property names. *)

From Stdlib Require Import ZArith Lia Ascii String List.
From stdpp Require Import base option list sorting strings gmap fin_maps.

Local Open Scope Z_scope.

(** ** JavaScript string primitives *)

Module JS.

(** [s.split(sep)] for a one-character separator.  The result is never
    empty: [''.split('/')] is [['']]. *)
Fixpoint split (sep : ascii) (s : string) : list string :=
  match s with
  | EmptyString => [EmptyString]
  | String c rest =>
      if Ascii.eqb c sep then EmptyString :: split sep rest
      else match split sep rest with
           | [] => [String c EmptyString]
           | piece :: pieces => String c piece :: pieces
           end
  end.

(** [s.startsWith(p)]. *)
Definition startsWith (s p : string) : bool := String.prefix p s.

(** [s.endsWith(suf)]: the last [suf.length] characters are [suf]. *)
Definition endsWith (s suf : string) : bool :=
  let n := String.length s in
  let k := String.length suf in
  (k <=? n)%nat && String.eqb (String.substring (n - k) k s) suf.

(** [s.slice(start, stop)]; a negative index counts from the end, and both
    are clamped to the string. [stop = None] is the one-argument form. *)
Definition slice (s : string) (start : Z) (stop : option Z) : string :=
  let len := Z.of_nat (String.length s) in
  let clamp k := if k <? 0 then Z.max (len + k) 0 else Z.min k len in
  let from := clamp start in
  let to := match stop with Some e => clamp e | None => len end in
  String.substring (Z.to_nat from) (Z.to_nat (to - from)) s.

(** [s.includes(c)] for a one-character needle. *)
Fixpoint includes (s : string) (c : ascii) : bool :=
  match s with
  | EmptyString => false
  | String d rest => Ascii.eqb d c || includes rest c
  end.

(** Truthiness of a string: only [''] is falsy. *)
Definition truthy (s : string) : bool := negb (String.eqb s EmptyString).

(** [s.replace(/\/\*$/, '')]: without the [m] flag [$] is the end of the
    input, so exactly one trailing ["/*"] is removed when there is one. *)
Definition stripGlob (s : string) : string :=
  if endsWith s "/*" then slice s 0 (Some (-2)) else s.

(** The property names of [Object.prototype], which an object written as a
    literal inherits. *)
Definition objectPrototypeKeys : list string :=
  ["constructor"; "__defineGetter__"; "__defineSetter__"; "hasOwnProperty";
   "__lookupGetter__"; "__lookupSetter__"; "isPrototypeOf";
   "propertyIsEnumerable"; "toString"; "valueOf"; "__proto__";
   "toLocaleString"].

Definition inherited (key : string) : bool :=
  existsb (String.eqb key) objectPrototypeKeys.

(** [String(Object.prototype[key])] for an inherited [key], as V8 prints
    it: [__proto__] is the prototype itself, [constructor] is [Object], and
    the others are built-in methods that carry their own name. *)
Definition inheritedText (key : string) : string :=
  if String.eqb key "__proto__" then "[object Object]"
  else if String.eqb key "constructor" then
    "function Object() { [native code] }"
  else "function " +:+ key +:+ "() { [native code] }".

(** [o[key] = v] for a string [v], on an object [o] that began as [{}] and
    whose own properties are the map: [__proto__] is an accessor of
    [Object.prototype] whose setter ignores a value that is neither an
    object nor [null], so nothing is stored; any other name becomes (or
    stays) an own property. *)
Definition setProperty (o : gmap string string) (key v : string)
    : gmap string string :=
  if String.eqb key "__proto__" then o else <[key := v]> o.

(** [o[key]] as [Array.prototype.join] prints it, on an object literal
    whose own properties are the map: an own property first, an inherited
    one otherwise; [None] is [undefined]. *)
Definition getProperty (o : gmap string string) (key : string)
    : option string :=
  match o !! key with
  | Some v => Some v
  | None => if inherited key then Some (inheritedText key) else None
  end.

(** [parts[index] || '']. *)
Definition at_or_empty (parts : list string) (index : nat) : string :=
  match parts !! index with
  | Some part => if truthy part then part else EmptyString
  | None => EmptyString
  end.

End JS.

(** ** [src/utils/priority.ts] *)

Module Priority.
Import JS.

Definition calculatePriority (path : string) (isExact : bool) : Z :=
  if isExact then Z.of_nat (length (split "/" path)) * 10
  else
    let segments := List.filter truthy (split "/" (stripGlob path)) in
    1000 + (100 - Z.of_nat (length segments)).

(** The optional argument [prefix?: string] is [None] when [undefined]. *)
Definition matchRoute (path pattern : string) (isExact : bool)
    (prefix : option string) : bool :=
  if isExact then String.eqb path pattern
  else
    let routePrefix :=
      match prefix with
      | Some p => if truthy p then p else stripGlob pattern
      | None => stripGlob pattern
      end in
    String.eqb path routePrefix || startsWith path (routePrefix +:+ "/").

(** The first block of [extractParams]: the wildcard parameter. *)
Definition bindWildcard (path : string) (isExact : bool)
    (prefix : option string) (params : gmap string string)
    : gmap string string :=
  match prefix with
  | Some p =>
      if negb isExact && truthy p then
        let remaining := slice path (Z.of_nat (String.length p)) None in
        if startsWith remaining "/" then
          <["*" := slice remaining 1 None]> params
        else if String.eqb remaining "" then <["*" := ""]> params
        else params
      else params
  | None => params
  end.

Definition isBracket (part : string) : bool :=
  startsWith part "[" && endsWith part "]".

(** [patternParts.forEach((part, index) => ...)], from [index] on; the
    body is the assignment [params[paramName] = pathParts[index] || '']. *)
Fixpoint bindBrackets (patternParts : list string) (index : nat)
    (pathParts : list string) (params : gmap string string)
    : gmap string string :=
  match patternParts with
  | [] => params
  | part :: rest =>
      let params' :=
        if isBracket part then
          setProperty params (slice part 1 (Some (-1)))
            (at_or_empty pathParts index)
        else params in
      bindBrackets rest (S index) pathParts params'
  end.

Definition extractParams (path pattern : string) (isExact : bool)
    (prefix : option string) : gmap string string :=
  let params := bindWildcard path isExact prefix ∅ in
  if includes pattern "[" && includes pattern "]" then
    bindBrackets (split "/" pattern) 0 (split "/" path) params
  else params.

End Priority.

(** ** [src/responses/response-helpers.ts] *)

(** The responses the pipeline can produce.  [NextResponse] is the host's
    type; a response is represented by the constructor call that built it. *)
Inductive Response : Type :=
  | PassThrough                          (* NextResponse.next() *)
  | Redirect (url base : string)  (* NextResponse.redirect(new URL(url, base)) *)
  | Json (body : string) (status : Z).  (* NextResponse.json(body, { status }) *)

Module Responses.
Import JS.

Definition next : Response := PassThrough.

(** [baseUrl || (typeof window !== 'undefined' ? ... :
    'http://localhost:3000')]; the middleware runs on the server, where
    [window] is undefined.  The calls followed below pass [/sign-in] or
    [/] for [url], and the request URL or nothing for [baseUrl]: paths,
    which [new URL] accepts against either base. *)
Definition redirect (url : string) (baseUrl : option string) : Response :=
  let baseURL :=
    match baseUrl with
    | Some b => if truthy b then b else "http://localhost:3000"
    | None => "http://localhost:3000"
    end in
  Redirect url baseURL.

Definition json (data : string) (status : option Z) : Response :=
  Json data (default 200 status).

End Responses.

(** ** [src/core/middleware-builder.ts] *)

Module Builder.
Import JS Priority.

(** The request handle: [req.url] and [new URL(req.url).pathname]. *)
Record Request : Type := { req_url : string; req_pathname : string }.

Inductive HookName : Type :=
  | beforeRequest_ | beforeRule_ | afterRule_ | afterRequest_ | onError_.

#[global] Instance HookName_eq_dec : EqDecision HookName.
Proof. solve_decision. Defined.

(** How a call of a rule ended. *)
Inductive RuleOutcome : Type :=
  | Returned (result : option Response)
  | Threw.

(** What one run of the handler does, in order: the hooks, rules and
    collaborators it invokes and the lines it writes with [console.error].
    [CallRule index outcome] is the call of the rule at position [index] of
    the matched route, with the way it ended. *)
Inductive Event : Type :=
  | CallHook (plugin : string) (hook : HookName)
  | ConsoleError (plugin : string) (hook : HookName)
  | FindRoute (path : string)
  | FetchUser
  | CallRule (index : nat) (outcome : RuleOutcome).

(** The calls of rules among the events of a run, in order. *)
Definition ruleCalls (evs : list Event) : list (nat * RuleOutcome) :=
  omap (fun ev =>
          match ev with
          | CallRule index outcome => Some (index, outcome)
          | _ => None
          end) evs.

(** The plugins whose hook [hook] was invoked during a run, in order. *)
Definition hookCalls (hook : HookName) (evs : list Event) : list string :=
  omap (fun ev =>
          match ev with
          | CallHook plugin h =>
              if decide (h = hook) then Some plugin else None
          | _ => None
          end) evs.

Section WithTypes.
(** [T]: the user data; [V]: metadata values ([any]); [W]: whatever state
    the closures of rules, plugins and the fetcher share; [E]: thrown
    values. *)
Context {T V W E : Type}.

(** [MiddlewareContext], [MiddlewareResult], [MiddlewareRule], [Plugin],
    [RouteDefinition] and [MiddlewareBuilderOptions] are declared in
    [types/core.ts] (the sources at hand carry it at the end of
    [src/rules/built-in-rules.ts]); the records below follow those
    declarations. *)
Record MiddlewareContext : Type := {
  ctx_data : option T;
  ctx_req : Request;
  ctx_path : string;
  ctx_params : gmap string string;
  ctx_metadata : gmap string V
}.

(** The context is one object, mutated in place and visible to every
    hook and rule of the request; it lives in the store next to the
    closures' state. *)
Record Store : Type := { context : MiddlewareContext; world : W }.

Inductive Completion (A : Type) : Type :=
  | Normal (a : A)
  | Throw (e : E).
Global Arguments Normal {A} a.
Global Arguments Throw {A} e.

(** User code (a rule, a hook): it may change the store and may throw. *)
Definition User (A : Type) : Type := Store -> Completion A * Store.

(** [MiddlewareRule] of [types/core.ts]: a function of the context whose
    result, a [MiddlewareResult], is a response or [null]. *)
Definition MiddlewareRule : Type := User (option Response).

(** The [Plugin] interface of [types/core.ts]: a name and the five optional
    hooks, with the arguments the builder passes to them after the
    context. *)
Record Plugin : Type := {
  name : string;
  beforeRequest : option (User unit);
  beforeRule : option (MiddlewareRule -> User unit);
  afterRule : option (MiddlewareRule -> option Response -> User unit);
  afterRequest : option (option Response -> User unit);
  onError : option (E -> User (option Response))
}.

(** [RouteDefinition] of [types/core.ts]; [metadata] is optional there,
    and [exact], [prefix] and [route] always fill it in. *)
Record RouteDefinition : Type := {
  pattern : string;
  rules : list MiddlewareRule;
  priority : Z;
  isExact : bool;
  prefix : option string;
  metadata : gmap string V
}.

Record MiddlewareBuilder : Type := {
  routes : list RouteDefinition;
  authPaths : list string;
  fetchUserFn : Request -> W -> Completion (option T) * W;
  plugins : list Plugin;
  defaultMetadata : gmap string V
}.

(** [MiddlewareBuilderOptions] of [types/core.ts]. *)
Record MiddlewareBuilderOptions : Type := {
  opt_fetchUser : Request -> W -> Completion (option T) * W;
  opt_authPaths : option (list string);
  opt_plugins : option (list Plugin);
  opt_defaultMetadata : option (gmap string V)
}.

Definition constructor (options : MiddlewareBuilderOptions)
    : MiddlewareBuilder :=
  {| routes := [];
     authPaths := default [] (opt_authPaths options);
     fetchUserFn := opt_fetchUser options;
     plugins := default [] (opt_plugins options);
     defaultMetadata := default ∅ (opt_defaultMetadata options) |}.

Definition push_route (b : MiddlewareBuilder) (r : RouteDefinition)
    : MiddlewareBuilder :=
  {| routes := routes b ++ [r];
     authPaths := authPaths b;
     fetchUserFn := fetchUserFn b;
     plugins := plugins b;
     defaultMetadata := defaultMetadata b |}.

Definition use (b : MiddlewareBuilder) (plugin : Plugin)
    : MiddlewareBuilder :=
  {| routes := routes b;
     authPaths := authPaths b;
     fetchUserFn := fetchUserFn b;
     plugins := plugins b ++ [plugin];
     defaultMetadata := defaultMetadata b |}.

Definition registerAuthPaths (b : MiddlewareBuilder) (paths : list string)
    : MiddlewareBuilder :=
  {| routes := routes b;
     authPaths := authPaths b ++ paths;
     fetchUserFn := fetchUserFn b;
     plugins := plugins b;
     defaultMetadata := defaultMetadata b |}.

Definition exact (b : MiddlewareBuilder) (path : string)
    (rules : list MiddlewareRule) : MiddlewareBuilder :=
  push_route b
    {| pattern := path;
       rules := rules;
       priority := calculatePriority path true;
       isExact := true;
       prefix := None;
       metadata := defaultMetadata b |}.

Definition prefix_ (b : MiddlewareBuilder) (pathPrefix : string)
    (rules : list MiddlewareRule) : MiddlewareBuilder :=
  let cleanPrefix :=
    if endsWith pathPrefix "/" then slice pathPrefix 0 (Some (-1))
    else pathPrefix in
  push_route b
    {| pattern := pathPrefix;
       rules := rules;
       priority := calculatePriority pathPrefix false;
       isExact := false;
       prefix := Some cleanPrefix;
       metadata := defaultMetadata b |}.

(** The [options] argument of [route]. *)
Record RouteOptions : Type := {
  ro_rules : list MiddlewareRule;
  ro_isExact : option bool;
  ro_metadata : option (gmap string V)
}.

(** [{ ...a, ...b }]: the entries of [b] win. *)
Definition spread (a b : gmap string V) : gmap string V := b ∪ a.

Definition route (b : MiddlewareBuilder) (path : string)
    (options : RouteOptions) : MiddlewareBuilder :=
  let isExact := default true (ro_isExact options) in
  let cleanPrefix :=
    if negb isExact && endsWith path "/" then
      Some (slice path 0 (Some (-1)))
    else None in
  push_route b
    {| pattern := path;
       rules := ro_rules options;
       priority := calculatePriority path isExact;
       isExact := isExact;
       prefix := cleanPrefix;
       metadata :=
         spread (defaultMetadata b) (default ∅ (ro_metadata options)) |}.

(** [[...this.routes].sort((a, b) => a.priority - b.priority)].  The
    comparator is a consistent one, so the language fixes the result:
    ascending priority, equal priorities in their original order.  It is
    computed here by a stable insertion sort. *)
Fixpoint insertByPriority (r : RouteDefinition)
    (sorted : list RouteDefinition) : list RouteDefinition :=
  match sorted with
  | [] => [r]
  | r' :: rest =>
      if priority r - priority r' <=? 0 then r :: sorted
      else r' :: insertByPriority r rest
  end.

Definition sortByPriority (rs : list RouteDefinition)
    : list RouteDefinition :=
  fold_right insertByPriority [] rs.

Definition routeMatches (path : string) (r : RouteDefinition) : bool :=
  matchRoute path (pattern r) (isExact r) (prefix r).

Definition findMatchingRoute (b : MiddlewareBuilder) (path : string)
    : option RouteDefinition :=
  List.find (routeMatches path) (sortByPriority (routes b)).

(** *** The pipeline: a store, exceptions, and the events emitted *)

Definition Eff (A : Type) : Type :=
  Store -> Completion A * Store * list Event.

Definition ret {A} (a : A) : Eff A := fun st => (Normal a, st, []).

Definition bind {A B} (m : Eff A) (k : A -> Eff B) : Eff B :=
  fun st =>
    match m st with
    | (Normal a, st1, ev1) =>
        let '(c, st2, ev2) := k a st1 in (c, st2, ev1 ++ ev2)
    | (Throw e, st1, ev1) => (Throw e, st1, ev1)
    end.

Definition tryCatch {A} (m : Eff A) (handler : E -> Eff A) : Eff A :=
  fun st =>
    match m st with
    | (Normal a, st1, ev1) => (Normal a, st1, ev1)
    | (Throw e, st1, ev1) =>
        let '(c, st2, ev2) := handler e st1 in (c, st2, ev1 ++ ev2)
    end.

Definition emit (ev : Event) : Eff unit := fun st => (Normal tt, st, [ev]).

Definition call {A} (f : User A) : Eff A :=
  fun st => let '(c, st1) := f st in (c, st1, []).

Definition modifyContext (f : MiddlewareContext -> MiddlewareContext)
    : Eff unit :=
  fun st =>
    (Normal tt, {| context := f (context st); world := world st |}, []).

Notation "'let*' x ':=' m 'in' k" := (bind m (fun x => k))
  (at level 10, x name, m at level 100, k at level 200).
Notation "m >> k" := (bind m (fun _ => k))
  (at level 80, right associativity).

(** The call [executePluginHook(hook, ...args)] with its arguments (the
    context is the one of the store). *)
Inductive HookCall : Type :=
  | BeforeRequest
  | BeforeRule (rule : MiddlewareRule)
  | AfterRule (rule : MiddlewareRule) (result : option Response)
  | AfterRequest (result : option Response).

Definition hookName (h : HookCall) : HookName :=
  match h with
  | BeforeRequest => beforeRequest_
  | BeforeRule _ => beforeRule_
  | AfterRule _ _ => afterRule_
  | AfterRequest _ => afterRequest_
  end.

(** [plugin[hook]] applied to the arguments, when the plugin has the hook. *)
Definition hookFn (plugin : Plugin) (h : HookCall) : option (User unit) :=
  match h with
  | BeforeRequest => beforeRequest plugin
  | BeforeRule rule => (fun f => f rule) <$> beforeRule plugin
  | AfterRule rule result => (fun f => f rule result) <$> afterRule plugin
  | AfterRequest result => (fun f => f result) <$> afterRequest plugin
  end.

Fixpoint executePluginHook (ps : list Plugin) (h : HookCall) : Eff unit :=
  match ps with
  | [] => ret tt
  | plugin :: rest =>
      match hookFn plugin h with
      | Some f =>
          tryCatch
            (emit (CallHook (name plugin) (hookName h)) >> call f)
            (fun _ => emit (ConsoleError (name plugin) (hookName h)))
      | None => ret tt
      end >>
      executePluginHook rest h
  end.

Fixpoint handlePluginErrors (ps : list Plugin) (error : E)
    : Eff (option Response) :=
  match ps with
  | [] => ret None
  | plugin :: rest =>
      match onError plugin with
      | Some f =>
          let* result :=
            tryCatch
              (emit (CallHook (name plugin) onError_) >> call (f error))
              (fun _ =>
                 emit (ConsoleError (name plugin) onError_) >> ret None) in
          match result with
          | Some response => ret (Some response)
          | None => handlePluginErrors rest error
          end
      | None => handlePluginErrors rest error
      end
  end.

(** [await rule(context)] for the rule at position [index]. *)
Definition callRule (index : nat) (rule : MiddlewareRule)
    : Eff (option Response) :=
  fun st =>
    match rule st with
    | (Normal result, st1) =>
        (Normal result, st1, [CallRule index (Returned result)])
    | (Throw e, st1) => (Throw e, st1, [CallRule index Threw])
    end.

(** [for (const rule of matchingRoute.rules) { ... }] and the lines after
    it; [index] is the position of the first rule of [rs] in the route. *)
Fixpoint runRules (ps : list Plugin) (rs : list MiddlewareRule)
    (index : nat) : Eff Response :=
  match rs with
  | [] =>
      let result := Responses.next in
      executePluginHook ps (AfterRequest (Some result)) >> ret result
  | rule :: rest =>
      executePluginHook ps (BeforeRule rule) >>
      let* result := callRule index rule in
      executePluginHook ps (AfterRule rule result) >>
      match result with
      | Some response =>
          executePluginHook ps (AfterRequest (Some response)) >>
          ret response
      | None => runRules ps rest (S index)
      end
  end.

Definition fetchUser (b : MiddlewareBuilder) (req : Request)
    : Eff (option T) :=
  emit FetchUser >>
  fun st =>
    let '(c, w) := fetchUserFn b req (world st) in
    (c, {| context := context st; world := w |}, []).

Definition setParams (params : gmap string string)
    (c : MiddlewareContext) : MiddlewareContext :=
  {| ctx_data := ctx_data c; ctx_req := ctx_req c; ctx_path := ctx_path c;
     ctx_params := params; ctx_metadata := ctx_metadata c |}.

Definition setMetadata (m : gmap string V)
    (c : MiddlewareContext) : MiddlewareContext :=
  {| ctx_data := ctx_data c; ctx_req := ctx_req c; ctx_path := ctx_path c;
     ctx_params := ctx_params c; ctx_metadata := m |}.

Definition setData (d : option T)
    (c : MiddlewareContext) : MiddlewareContext :=
  {| ctx_data := d; ctx_req := ctx_req c; ctx_path := ctx_path c;
     ctx_params := ctx_params c; ctx_metadata := ctx_metadata c |}.

(** The [try] block of the handler from [findMatchingRoute] on. *)
Definition resolveAndRun (b : MiddlewareBuilder) (req : Request)
    : Eff Response :=
  let path := req_pathname req in
  emit (FindRoute path) >>
  match findMatchingRoute b path with
  | None =>
      let result := Responses.next in
      executePluginHook (plugins b) (AfterRequest (Some result)) >>
      ret result
  | Some matchingRoute =>
      modifyContext
        (setParams
           (extractParams path (pattern matchingRoute)
              (isExact matchingRoute) (prefix matchingRoute))) >>
      modifyContext
        (fun c =>
           setMetadata (spread (ctx_metadata c) (metadata matchingRoute)) c) >>
      let* data := fetchUser b req in
      modifyContext (setData data) >>
      runRules (plugins b) (rules matchingRoute) 0
  end.

(** The body of the [try] block of the handler. *)
Definition tryBlock (b : MiddlewareBuilder) (req : Request) : Eff Response :=
  executePluginHook (plugins b) BeforeRequest >> resolveAndRun b req.

(** [this.authPaths.some((authPath) => ...)] of the [catch] block. *)
Definition isAuthPath (authPaths : list string) (path : string) : bool :=
  existsb
    (fun authPath =>
       if endsWith authPath "/*" then
         let prefix := slice authPath 0 (Some (-2)) in
         startsWith path prefix
       else String.eqb path authPath)
    authPaths.

(** The body of the [catch] block of the handler. *)
Definition catchBlock (b : MiddlewareBuilder) (req : Request) (error : E)
    : Eff Response :=
  let path := req_pathname req in
  let* pluginResult := handlePluginErrors (plugins b) error in
  match pluginResult with
  | Some response => ret response
  | None =>
      if isAuthPath (authPaths b) path then ret Responses.next
      else ret (Responses.redirect "/sign-in" (Some (req_url req)))
  end.

Definition initialContext (b : MiddlewareBuilder) (req : Request)
    : MiddlewareContext :=
  {| ctx_data := None;
     ctx_req := req;
     ctx_path := req_pathname req;
     ctx_params := ∅;
     ctx_metadata := defaultMetadata b |}.

(** [build()]: the handler, run on a request with the closures' state [w].
    It yields the completion, the final store and the events in order. *)
Definition build (b : MiddlewareBuilder) (req : Request) (w : W)
    : Completion Response * Store * list Event :=
  tryCatch (tryBlock b req) (catchBlock b req)
    {| context := initialContext b req; world := w |}.

End WithTypes.

Notation "'let*' x ':=' m 'in' k" := (bind m (fun x => k))
  (at level 10, x name, m at level 100, k at level 200).
Notation "m >> k" := (bind m (fun _ => k))
  (at level 80, right associativity).

End Builder.

(** ** [Array.prototype.sort] under an arbitrary comparator *)

(** The legacy matcher sorts with a comparator that is not a consistent one
    (it never answers [0], and answers [-1] both ways for two patterns of the
    same kind), for which the language leaves the order to the engine.  The
    middleware runs on V8 (Node.js and the edge runtime); this is V8's sort
    for an array of fewer than 64 elements, where it is a single pass of
    [CountAndMakeRun] followed by [BinaryInsertionSort] over the rest. *)
Module V8.
Section Sort.
Context {A : Type} (comparefn : A -> A -> Z).

(** How far the run that starts with [previous] extends into [rest]: a
    descending run continues while [order < 0], an ascending one while
    [order >= 0]. *)
Fixpoint runTail (isDescending : bool) (previous : A) (rest : list A) : nat :=
  match rest with
  | [] => 0%nat
  | current :: rest' =>
      let order := comparefn current previous in
      if isDescending then
        if order <? 0 then S (runTail isDescending current rest') else 0%nat
      else
        if order <? 0 then 0%nat else S (runTail isDescending current rest')
  end.

(** [CountAndMakeRun]: the initial run, reversed when it is descending, and
    the elements after it. *)
Definition countAndMakeRun (l : list A) : list A * list A :=
  match l with
  | [] => ([], [])
  | [x] => ([x], [])
  | elementHigh :: elementLow :: rest =>
      let order := comparefn elementLow elementHigh in
      let isDescending := order <? 0 in
      let runLength := (2 + runTail isDescending elementLow rest)%nat in
      let run := take runLength l in
      (if isDescending then rev run else run, drop runLength l)
  end.

(** The [while (left < right)] loop of [BinaryInsertionSort]; every turn
    shrinks [right - left], so [right - left] turns suffice. *)
Fixpoint insertionPoint (pivot : A) (sorted : list A)
    (left right : nat) (turns : nat) : nat :=
  match turns with
  | O => left
  | S turns' =>
      if (left <? right)%nat then
        let mid := (left + (right - left) / 2)%nat in
        match sorted !! mid with
        | Some element =>
            let order := comparefn pivot element in
            if order <? 0 then insertionPoint pivot sorted left mid turns'
            else insertionPoint pivot sorted (mid + 1)%nat right turns'
        | None => left
        end
      else left
  end.

(** [BinaryInsertionSort]: each remaining element is placed into the sorted
    part at its insertion point. *)
Fixpoint binaryInsertionSort (sorted rest : list A) : list A :=
  match rest with
  | [] => sorted
  | pivot :: rest' =>
      let left :=
        insertionPoint pivot sorted 0 (length sorted) (length sorted) in
      binaryInsertionSort (take left sorted ++ pivot :: drop left sorted) rest'
  end.

Definition sort (l : list A) : list A :=
  let '(run, rest) := countAndMakeRun l in
  binaryInsertionSort run rest.

End Sort.
End V8.

(** ** [src/legacy/middleware.ts] *)

Module Legacy.
Import JS.

(** The request: its URL, the pathname of that URL, and which references
    [new URL(reference, req.url)] accepts; the URL parser is the
    platform's, and it throws a [TypeError] for the others. *)
Record Request : Type := {
  req_url : string;
  req_pathname : string;
  req_resolves : string -> bool
}.

(** The [options] of [redirect(path, options?)]: [params] when the key is
    present, [query] when truthy, as [new URLSearchParams(query).toString()],
    and [hash] when truthy. *)
Record RedirectOptions : Type := {
  opt_params : option (gmap string string);
  opt_query : option string;
  opt_hash : option string
}.

(** What a rule does with the two callbacks it receives. *)
Inductive Action : Type :=
  | CallNext
  | CallRedirect (path : string) (options : option RedirectOptions).

Section WithTypes.
(** [T]: the user data; [W]: the state shared by the rules' closures;
    [E]: thrown values. *)
Context {T W E : Type}.

(** The argument of a rule, without the two callbacks. *)
Record RuleArgs : Type := {
  arg_data : T;
  arg_params : gmap string (option string);
  arg_path : string
}.

(** A rule: the calls it makes to [next] and [redirect], in order, and the
    value it throws afterwards, if any. *)
Definition RuleFunction : Type :=
  RuleArgs -> W -> list Action * option E * W.

Definition isBracket (part : string) : bool :=
  startsWith part "[" && endsWith part "]".

(** [pathParts.reduce(...)] of [extractParams]; a missing segment of the
    pathname is [undefined], here [None]. *)
Fixpoint extractFrom (pathParts : list string) (index : nat)
    (pathnameParts : list string) (params : gmap string (option string))
    : gmap string (option string) :=
  match pathParts with
  | [] => params
  | part :: rest =>
      extractFrom rest (S index) pathnameParts
        (if isBracket part then
           <[slice part 1 (Some (-1)) := pathnameParts !! index]> params
         else params)
  end.

Definition extractParams (path pathname : string)
    : gmap string (option string) :=
  extractFrom (split "/" path) 0 (split "/" pathname) ∅.

Definition isWildcard (path : string) : bool := endsWith path "/*".

(** [pathParts.every((part, index) => ...)], from [index] on. *)
Fixpoint everyPart (pathParts : list string) (index : nat)
    (pathnameParts : list string) : bool :=
  match pathParts with
  | [] => true
  | part :: rest =>
      (if String.eqb part "*" then true
       else if isBracket part then true
       else match pathnameParts !! index with
            | Some p => String.eqb part p
            | None => false
            end)
      && everyPart rest (S index) pathnameParts
  end.

Definition match_ (path pathname : string) : bool :=
  everyPart (split "/" path) 0 (split "/" pathname).

(** The comparator handed to [sort]. *)
Definition comparePaths (a b : string) : Z :=
  if isWildcard a && negb (isWildcard b) then 1 else -1.

Definition sortPaths (paths : list string) : list string :=
  V8.sort comparePaths paths.

(** The two variables shared by [next] and [redirect] for one path. *)
Record LoopState : Type := {
  nextCalled : bool;
  redirectPath : option string
}.

(** Truthiness of [redirectPath]. *)
Definition hasRedirect (st : LoopState) : bool :=
  match redirectPath st with
  | Some p => truthy p
  | None => false
  end.

(** The target [redirect(path, options)] records. *)
Definition redirectTarget (path : string) (options : option RedirectOptions)
    : string :=
  match options with
  | None => path
  | Some o =>
      let withParams :=
        match opt_params o with
        | Some params =>
            String.concat "/"
              (map (fun part =>
                      if isBracket part then
                        default ""
                          (getProperty params (slice part 1 (Some (-1))))
                      else part)
                   (split "/" path))
        | None => path
        end in
      let withQuery :=
        match opt_query o with
        | Some q => withParams +:+ "?" +:+ q
        | None => withParams
        end in
      match opt_hash o with
      | Some h => withQuery +:+ "#" +:+ h
      | None => withQuery
      end
  end.

Definition perform (st : LoopState) (a : Action) : LoopState :=
  match a with
  | CallNext => {| nextCalled := true; redirectPath := redirectPath st |}
  | CallRedirect path options =>
      {| nextCalled := nextCalled st;
         redirectPath := Some (redirectTarget path options) |}
  end.

(** [for (const rule of rules) { await rule(...); if (redirectPath) break;
    if (nextCalled) continue; }]: the state after the loop, or the value a
    rule threw. *)
Fixpoint ruleLoop (rules : list RuleFunction) (args : RuleArgs)
    (st : LoopState) (w : W) : (LoopState + E) * W :=
  match rules with
  | [] => (inl st, w)
  | rule :: rest =>
      let '(actions, thrown, w') := rule args w in
      let st' := fold_left perform actions st in
      match thrown with
      | Some e => (inr e, w')
      | None =>
          if hasRedirect st' then (inl st', w')
          else if nextCalled st' then ruleLoop rest args st' w'
          else ruleLoop rest args st' w'
      end
  end.

(** What [apply] throws: the value a rule threw, or the [TypeError] of
    [new URL(target, req.url)] for a target it does not accept. *)
Inductive Thrown : Type :=
  | ByRule (e : E)
  | InvalidURL (target : string).

(** The three [return]s that follow the loop; the second one builds the
    URL of the redirect, which throws for a target that is no valid
    reference. *)
Definition outcome (req : Request) (st : LoopState) : Response + Thrown :=
  if negb (nextCalled st) && negb (hasRedirect st) then inl PassThrough
  else
    match redirectPath st with
    | Some target =>
        if truthy target && negb (String.eqb target (req_pathname req)) then
          if req_resolves req target then
            inl (Redirect target (req_url req))
          else inr (InvalidURL target)
        else inl PassThrough
    | None => inl PassThrough
    end.

(** The body of [for (const path of sortedPaths)], which always returns or
    throws. *)
Definition applyPath (rules : list RuleFunction) (req : Request)
    (path pathname : string) (data : T) (w : W)
    : (Response + Thrown) * W :=
  let params := extractParams path pathname in
  let args :=
    {| arg_data := data; arg_params := params;
       arg_path := req_pathname req |} in
  match
    ruleLoop rules args {| nextCalled := false; redirectPath := None |} w
  with
  | (inl st, w') => (outcome req st, w')
  | (inr e, w') => (inr (ByRule e), w')
  end.

(** [this.rules]: the patterns in the order of [Object.keys], each with its
    rules. *)
Definition AuthRules : Type := list (string * list RuleFunction).

Definition rulesOf (rules : AuthRules) (path : string) : list RuleFunction :=
  match List.find (fun entry => String.eqb (fst entry) path) rules with
  | Some entry => snd entry
  | None => []
  end.

(** [apply]: [None] is the [undefined] returned when no pattern matches. *)
Definition apply (rules : AuthRules) (req : Request) (pathname : string)
    (data : T) (w : W) : (option Response + Thrown) * W :=
  let allPaths := map fst rules in
  let matchedPaths := List.filter (fun path => match_ path pathname) allPaths in
  let sortedPaths := sortPaths matchedPaths in
  match sortedPaths with
  | [] => (inl None, w)
  | path :: _ =>
      match applyPath (rulesOf rules path) req path pathname data w with
      | (inl response, w') => (inl (Some response), w')
      | (inr e, w') => (inr e, w')
      end
  end.

End WithTypes.
End Legacy.

(** ** The vocabulary of the specification *)

Module Spec.

(** The number of [/]-separated segments of a pattern, the empty ones
    included: one more than the number of slashes. *)
Fixpoint slashes (s : string) : nat :=
  match s with
  | EmptyString => 0%nat
  | String c rest => ((if Ascii.eqb c "/" then 1 else 0) + slashes rest)%nat
  end.

Definition segmentCount (pattern : string) : nat := S (slashes pattern).

(** The number of non-empty segments: the maximal runs of characters other
    than [/].  [inside] tells whether the previous character belongs to a
    run already counted. *)
Fixpoint runsFrom (inside : bool) (s : string) : nat :=
  match s with
  | EmptyString => 0%nat
  | String c rest =>
      if Ascii.eqb c "/" then runsFrom false rest
      else ((if inside then 0 else 1) + runsFrom true rest)%nat
  end.

Definition nonEmptySegments (pattern : string) : nat := runsFrom false pattern.

(** A path of [n] segments, [/a/a/.../a]. *)
Fixpoint deepPath (n : nat) : string :=
  match n with
  | O => ""
  | S k => "/a" +:+ deepPath k
  end.

(** The rule chain stops at the first decision.  [decided n outcomes result]
    reads the outcomes of the calls made to the rules of a route of [n]
    rules: every call but the last returned [null]; a call that returned a
    response is the last one, and that response is the result; when all [n]
    rules returned [null] the result is the pass-through response; a call
    that threw is the last one too, and the result is then up to the error
    policy. *)
Fixpoint decided (n : nat) (outcomes : list Builder.RuleOutcome)
    (result : Response) : Prop :=
  match outcomes with
  | [] => n = 0%nat /\ result = PassThrough
  | Builder.Returned None :: later =>
      exists n', n = S n' /\ decided n' later result
  | Builder.Returned (Some response) :: later =>
      n <> 0%nat /\ later = [] /\ result = response
  | Builder.Threw :: later => n <> 0%nat /\ later = []
  end.

(** A rule that returns [result] whatever the store. *)
Definition ruleReturns {T V W E : Type}
    (rule : @Builder.MiddlewareRule T V W E) (result : option Response)
    : Prop :=
  forall st, exists st', rule st = (Builder.Normal result, st').

(** The order [findMatchingRoute] sorts the routes in. *)
Definition byPriority {T V W E : Type}
    (a c : @Builder.RouteDefinition T V W E) : Prop :=
  Builder.priority a <= Builder.priority c.

(** A rule that throws whatever the store. *)
Definition ruleThrows {T V W E : Type}
    (rule : @Builder.MiddlewareRule T V W E) : Prop :=
  forall st, exists e st', rule st = (Builder.Throw e, st').

(** A plugin whose [onError], if it has one, never supplies a response. *)
Definition onErrorSilent {T V W E : Type}
    (plugin : @Builder.Plugin T V W E) : Prop :=
  forall f, Builder.onError plugin = Some f ->
    forall e st response st',
      f e st <> (Builder.Normal (Some response), st').



(** A reference that begins with one slash followed by neither a slash nor
    a backslash: a path, which the URL parser accepts against every http
    or https base.  The sample requests below take it for [req_resolves];
    the targets used with them are such paths. *)
Definition pathAbsolute (reference : string) : bool :=
  match reference with
  | String first rest =>
      Ascii.eqb first "/" &&
      match rest with
      | String second _ =>
          negb (Ascii.eqb second "/"
                || Ascii.eqb second (Ascii.ascii_of_nat 92))
      | EmptyString => true
      end
  | EmptyString => false
  end.

(** A legacy rule that makes the given calls and returns. *)
Definition does {T W E : Type} (actions : list Legacy.Action)
    : @Legacy.RuleFunction T W E :=
  fun _ w => (actions, None, w).

(** A legacy rule that only ever calls [next], any number of times. *)
Definition onlyCallsNext {T W E : Type}
    (rule : @Legacy.RuleFunction T W E) : Prop :=
  exists n, forall args w,
    rule args w = (replicate n Legacy.CallNext, None, w).

(** A legacy rule that calls [redirect(target)] once and returns. *)
Definition redirectsTo {T W E : Type} (target : string)
    (rule : @Legacy.RuleFunction T W E) : Prop :=
  forall args w,
    rule args w = ([Legacy.CallRedirect target None], None, w).

End Spec.

(** ** Sentences of the specification that the code does not satisfy
    as they are worded *)

Module Stated.
Import JS Priority.

(** C3, the bracket rule: every pattern segment [[name]] binds [name] to the
    path segment at the same index. *)
Definition bracketRule : Prop :=
  forall (path pat : string) (isExact : bool) (pre : option string)
         (i : nat) (name : string),
    split "/" pat !! i = Some ("[" +:+ name +:+ "]") ->
    extractParams path pat isExact pre !! name =
      Some (default "" (split "/" path !! i)).

(** C3, the wildcard rule: a prefix route binds [*] to what follows the
    slash after its prefix, and to the empty string when the path is the
    prefix. *)
Definition wildcardRule : Prop :=
  forall (path pat p rest : string),
    (path = p +:+ "/" +:+ rest ->
     extractParams path pat false (Some p) !! "*" = Some rest) /\
    (path = p ->
     extractParams path pat false (Some p) !! "*" = Some "").

(** C8, the tie-break: within the wildcard patterns and within the others
    the registration order is kept, i.e. the sort is the stable partition
    that puts the wildcard patterns last. *)
Definition registrationOrderKept : Prop :=
  forall paths : list string,
    (length paths < 64)%nat ->
    Legacy.sortPaths paths =
      List.filter (fun p => negb (Legacy.isWildcard p)) paths
        ++ List.filter Legacy.isWildcard paths.

(** C9: once a rule has called [next], the redirect of a later rule is
    not honoured and the outcome is the pass-through response. *)
Definition redirectAfterNextIgnored : Prop :=
  forall (target : string) (req : Legacy.Request) (path pathname : string),
    @Legacy.applyPath unit unit unit
      [Spec.does [Legacy.CallNext];
       Spec.does [Legacy.CallRedirect target None]]
      req path pathname tt tt
    = (inl PassThrough, tt).

End Stated.

(** ** Sample builders, rules and plugins *)

Module Examples.
Import Builder.

(** The user data and the metadata values are strings, the shared state is
    a counter, and what is thrown is a message. *)
Definition SampleRule : Type := @MiddlewareRule string string nat string.
Definition SamplePlugin : Type := @Plugin string string nat string.
Definition SampleBuilder : Type := @MiddlewareBuilder string string nat string.

Definition sampleOptions : @MiddlewareBuilderOptions string string nat string :=
  {| opt_fetchUser := fun _ w => (Normal (Some "alice"), w);
     opt_authPaths := None;
     opt_plugins := None;
     opt_defaultMetadata := None |}.

Definition request (path : string) : Request :=
  {| req_url := "https://example.com" +:+ path; req_pathname := path |}.

(** [() => null]. *)
Definition passes : SampleRule := fun st => (Normal None, st).

(** [() => Responses.forbidden('denied')]. *)
Definition denies : SampleRule :=
  fun st => (Normal (Some (Json "denied" 403)), st).

(** A rule that counts its calls and redirects. *)
Definition counts : SampleRule :=
  fun st =>
    (Normal (Some (Redirect "/elsewhere" "https://example.com")),
     {| context := context st; world := S (world st) |}).

(** [() => { throw 'boom' }]. *)
Definition fails : SampleRule := fun st => (Throw "boom", st).

(** A plugin whose [beforeRequest] throws and whose [afterRequest] counts. *)
Definition faulty : SamplePlugin :=
  {| name := "faulty";
     beforeRequest := Some (fun st => (Throw "hook failed", st));
     beforeRule := None;
     afterRule := None;
     afterRequest :=
       Some (fun _ st =>
               (Normal tt,
                {| context := context st; world := S (world st) |}));
     onError := None |}.

Definition dashboard : SampleBuilder :=
  exact (constructor sampleOptions) "/dashboard" [passes; denies; counts].

Definition dashboardRoute : @RouteDefinition string string nat string :=
  {| pattern := "/dashboard"; rules := [passes; denies; counts];
     priority := 20; isExact := true; prefix := None; metadata := ∅ |}.

Definition guarded : SampleBuilder :=
  use (exact (constructor sampleOptions) "/dashboard" [passes; denies])
      faulty.

(** A route whose only rule throws, with the given auth paths. *)
Definition api (authPaths : list string) : SampleBuilder :=
  exact (registerAuthPaths (constructor sampleOptions) authPaths)
        "/api/x" [fails].

Definition users : SampleBuilder :=
  exact (constructor sampleOptions) "/users/[id]" [passes].

Definition usersRoute : @RouteDefinition string string nat string :=
  {| pattern := "/users/[id]"; rules := [passes];
     priority := 30; isExact := true; prefix := None; metadata := ∅ |}.

End Examples.

(** ** [src/rules/built-in-rules.ts] *)

Module Rules.
Import JS Builder.

(** The fields of the user data the built-in rules read ([data?.role],
    [data?.roles], [data?.permissions]); every one may be missing. *)
Record UserData : Type := {
  role : option string;
  roles : option (list string);
  permissions : option (list string)
}.

(** [list.includes(x)] for an array of strings. *)
Definition arrayIncludes (l : list string) (x : string) : bool :=
  existsb (String.eqb x) l.

(** [Responses.forbidden(message)], i.e.
    [NextResponse.json({ error: message }, { status: 403 })]; the body
    [{ error: message }] is written [error: message]. *)
Definition forbidden (message : string) : Response :=
  Json ("error: " +:+ message) 403.

Section WithTypes.
Context {V W E : Type}.

Definition Rule : Type := @MiddlewareRule UserData V W E.

Definition isLoggedIn : Rule :=
  fun st =>
    match ctx_data (context st) with
    | Some _ => (Normal None, st)
    | None => (Normal (Some (Responses.redirect "/sign-in" None)), st)
    end.

Definition isNotLoggedIn : Rule :=
  fun st =>
    match ctx_data (context st) with
    | None => (Normal (Some Responses.next), st)
    | Some _ => (Normal (Some (Responses.redirect "/" None)), st)
    end.

(** [data?.role === role || data?.roles?.includes(role)]. *)
Definition roleGranted (data : option UserData) (r : string) : bool :=
  match data with
  | Some d =>
      match role d with
      | Some own => String.eqb own r
      | None => false
      end
      || match roles d with
         | Some rs => arrayIncludes rs r
         | None => false
         end
  | None => false
  end.

Definition hasRole (r : string) : Rule :=
  fun st =>
    if roleGranted (ctx_data (context st)) r then (Normal None, st)
    else (Normal (Some (forbidden ("Required role: " +:+ r))), st).

(** [data?.permissions?.includes(permission)]. *)
Definition permissionGranted (data : option UserData) (permission : string)
    : bool :=
  match data with
  | Some d =>
      match permissions d with
      | Some ps => arrayIncludes ps permission
      | None => false
      end
  | None => false
  end.

Definition hasPermission (permission : string) : Rule :=
  fun st =>
    if permissionGranted (ctx_data (context st)) permission
    then (Normal None, st)
    else
      (Normal (Some (forbidden ("Required permission: " +:+ permission))), st).

Definition custom (fn : Rule) : Rule := fn.

End WithTypes.

(** *** [rateLimit] *)

Record RateLimitOptions : Type := { requests : Z; window : Z }.

(** [req.headers.get('x-forwarded-for') || req.headers.get('x-real-ip') ||
    'unknown']; a header that is absent is [None]. *)
Definition clientIp (forwardedFor realIp : option string) : string :=
  let orElse (h : option string) (other : string) :=
    match h with
    | Some v => if truthy v then v else other
    | None => other
    end in
  orElse forwardedFor (orElse realIp "unknown").

(** The body of the rule [rateLimit(options)] returns, for the address [ip]
    at the time [now] ([Date.now()]), on the map [table] its closure keeps
    ([requests] in the source): the result and the map afterwards. *)
Definition rateLimit (options : RateLimitOptions) (ip : string) (now : Z)
    (table : gmap string (list Z))
    : option Response * gmap string (list Z) :=
  let windowStart := now - window options in
  let table1 :=
    match table !! ip with
    | Some _ => table
    | None => <[ip := []]> table
    end in
  let userRequests := default [] (table1 !! ip) in
  let validRequests := List.filter (fun time => windowStart <? time)
                                   userRequests in
  if requests options <=? Z.of_nat (length validRequests) then
    (Some (Json "error: Rate limit exceeded" 429), table1)
  else (None, <[ip := validRequests ++ [now]]> table1).

End Rules.

(** ** [src/plugins/caching/memory-storage.ts] *)

Module MemoryCacheStorage.
Section WithValues.
(** The cached values ([any]); [null] is never one of them. *)
Context {Val : Type}.

Record Item : Type := { value : Val; expires : Z }.

(** Every method is given the time [Date.now()] returns when it reads the
    clock, and the map [this.cache]. *)
Definition get (key : string) (now : Z) (cache : gmap string Item)
    : option Val * gmap string Item :=
  match cache !! key with
  | Some item =>
      if expires item <? now then (None, delete key cache)
      else (Some (value item), cache)
  | None => (None, delete key cache)
  end.

(** [ttl] is [None] when the argument is omitted; [0] is falsy too. *)
Definition set (key : string) (v : Val) (ttl : option Z) (now : Z)
    (cache : gmap string Item) : gmap string Item :=
  let expires :=
    match ttl with
    | Some t => if t =? 0 then now + 3600000 else now + t
    | None => now + 3600000
    end in
  <[key := {| value := v; expires := expires |}]> cache.

Definition delete_ (key : string) (cache : gmap string Item)
    : gmap string Item :=
  delete key cache.

Definition clear (cache : gmap string Item) : gmap string Item := ∅.

End WithValues.
End MemoryCacheStorage.

(** ** [src/legacy/middleware.ts]: [handle] *)

Module LegacyHandle.
Import JS Legacy.

Section WithTypes.
Context {T W E : Type}.




End WithTypes.
End LegacyHandle.

(** ** More vocabulary *)

Module Spec2.
Import Builder.

(** One pass over the routes in registration order, from the last to the
    first, that keeps the matching route of lowest priority and, among
    equals, the one registered first. *)
Definition better {T V W E : Type} (path : string)
    (r : @RouteDefinition T V W E) (acc : option (@RouteDefinition T V W E))
    : option (@RouteDefinition T V W E) :=
  if routeMatches path r then
    match acc with
    | Some a => if priority r <=? priority a then Some r else Some a
    | None => Some r
    end
  else acc.

Definition firstBest {T V W E : Type} (path : string)
    (rs : list (@RouteDefinition T V W E))
    : option (@RouteDefinition T V W E) :=
  fold_right (better path) None rs.

(** Whether the event is the fetch of the user data. *)
Definition isFetch (ev : Event) : bool :=
  match ev with
  | FetchUser => true
  | _ => false
  end.

(** A plugin whose [onError] always supplies [response]. *)
Definition onErrorSupplies {T V W E : Type} (response : Response)
    (plugin : @Plugin T V W E) : Prop :=
  exists f, onError plugin = Some f /\
    forall e st, exists st', f e st = (Normal (Some response), st').

(** The rate limiter run on a sequence of calls [(ip, now)]: every call
    with the result it got, and the map in the end. *)
Fixpoint rateLimitRun (options : Rules.RateLimitOptions)
    (calls : list (string * Z)) (table : gmap string (list Z))
    : list (string * Z * option Response) * gmap string (list Z) :=
  match calls with
  | [] => ([], table)
  | (ip, now) :: later =>
      let '(result, table') := Rules.rateLimit options ip now table in
      let '(log, final) := rateLimitRun options later table' in
      ((ip, now, result) :: log, final)
  end.

(** The times of the calls of [ip] in a log that were let through and
    are later than [since]. *)
Definition admitted (ip : string) (since : Z)
    (log : list (string * Z * option Response)) : list Z :=
  omap (fun entry =>
          match entry with
          | (ip', time, None) =>
              if String.eqb ip' ip && (since <? time) then Some time
              else None
          | _ => None
          end) log.

(** The recorded times that still count from [from] on are the times of
    the calls let through that still count. *)
Definition inStep (options : Rules.RateLimitOptions)
    (table : gmap string (list Z))
    (past : list (string * Z * option Response)) (from : Z) : Prop :=
  forall ip t, from <= t ->
    List.filter (fun time => t - Rules.window options <? time)
      (default [] (table !! ip))
    = admitted ip (t - Rules.window options) past.

(** The times of the calls never go back. *)
Fixpoint timesAscend (from : Z) (calls : list (string * Z)) : Prop :=
  match calls with
  | [] => True
  | (_, now) :: later => from <= now /\ timesAscend now later
  end.

(** The tables that the constructor and the registration methods can
    build from [options]. *)
Inductive Registered {T V W E : Type}
    (options : @MiddlewareBuilderOptions T V W E)
    : @MiddlewareBuilder T V W E -> Prop :=
  | Registered_new : Registered options (constructor options)
  | Registered_use b plugin :
      Registered options b -> Registered options (use b plugin)
  | Registered_authPaths b paths :
      Registered options b -> Registered options (registerAuthPaths b paths)
  | Registered_exact b path rules :
      Registered options b -> Registered options (exact b path rules)
  | Registered_prefix b pathPrefix rules :
      Registered options b -> Registered options (prefix_ b pathPrefix rules)
  | Registered_route b path routeOptions :
      Registered options b -> Registered options (route b path routeOptions).

End Spec2.

(** ** More sample tables *)

Module Scenarios.
Import Builder Examples.


(** A route whose only rule throws, on a path that continues the auth
    prefix [/api] inside a segment. *)
Definition apix : SampleBuilder :=
  exact (registerAuthPaths (constructor sampleOptions) ["/api/*"])
        "/apix" [fails].

(** Two prefix routes of one priority, [/docs] registered first. *)
Definition twoDocs : SampleBuilder :=
  prefix_ (prefix_ (constructor sampleOptions) "/docs" [passes])
          "/docs/" [denies].

Definition docsRoute : @RouteDefinition string string nat string :=
  {| pattern := "/docs"; rules := [passes];
     priority := 1099; isExact := false; prefix := Some "/docs";
     metadata := ∅ |}.

Definition docsSlashRoute : @RouteDefinition string string nat string :=
  {| pattern := "/docs/"; rules := [denies];
     priority := 1099; isExact := false; prefix := Some "/docs";
     metadata := ∅ |}.

(** The same table with an exact route registered last. *)
Definition docsWithIntro : SampleBuilder :=
  exact twoDocs "/docs/intro" [counts].

Definition introRoute : @RouteDefinition string string nat string :=
  {| pattern := "/docs/intro"; rules := [counts];
     priority := 30; isExact := true; prefix := None; metadata := ∅ |}.

(** A plugin whose [onError] returns [null]. *)
Definition shrugs : SamplePlugin :=
  {| name := "shrugs";
     beforeRequest := None;
     beforeRule := None;
     afterRule := None;
     afterRequest := None;
     onError := Some (fun _ st => (Normal None, st)) |}.

(** A plugin whose [onError] answers with a 500. *)
Definition rescuer : SamplePlugin :=
  {| name := "rescuer";
     beforeRequest := None;
     beforeRule := None;
     afterRule := None;
     afterRequest := None;
     onError := Some (fun _ st => (Normal (Some (Json "handled" 500)), st)) |}.

(** The route whose only rule throws, with the two plugins. *)
Definition rescuedApi : SampleBuilder := use (use (api []) shrugs) rescuer.

(** Tables over the user data of the built-in rules. *)
Definition UserBuilder : Type :=
  @MiddlewareBuilder Rules.UserData string nat string.

Definition admin : Rules.UserData :=
  {| Rules.role := Some "admin"; Rules.roles := None;
     Rules.permissions := Some ["read"; "write"] |}.

Definition userOptions (user : option Rules.UserData)
    : @MiddlewareBuilderOptions Rules.UserData string nat string :=
  {| opt_fetchUser := fun _ w => (Normal user, w);
     opt_authPaths := None;
     opt_plugins := None;
     opt_defaultMetadata := None |}.

Definition signIn : UserBuilder :=
  exact (constructor (userOptions (Some admin))) "/sign-in"
        [Rules.isNotLoggedIn; Rules.hasRole "admin"].

Definition signInRoute
    : @RouteDefinition Rules.UserData string nat string :=
  {| pattern := "/sign-in";
     rules := [Rules.isNotLoggedIn; Rules.hasRole "admin"];
     priority := 20; isExact := true; prefix := None; metadata := ∅ |}.

Definition account : UserBuilder :=
  exact (constructor (userOptions None)) "/account"
        [Rules.isLoggedIn; Rules.hasRole "admin"].

Definition accountRoute
    : @RouteDefinition Rules.UserData string nat string :=
  {| pattern := "/account";
     rules := [Rules.isLoggedIn; Rules.hasRole "admin"];
     priority := 20; isExact := true; prefix := None; metadata := ∅ |}.

Definition adminState : @Store Rules.UserData string nat :=
  {| context :=
       {| ctx_data := Some admin;
          ctx_req := request "/admin";
          ctx_path := "/admin";
          ctx_params := ∅;
          ctx_metadata := ∅ |};
     world := 0%nat |}.

(** Two requests a second, and three calls of one address within it. *)
Definition twoASecond : Rules.RateLimitOptions :=
  {| Rules.requests := 2; Rules.window := 1000 |}.

Definition burst : list (string * Z) :=
  [("10.0.0.1", 0); ("10.0.0.1", 10); ("10.0.0.1", 20)].

(** A legacy table: a wildcard, a literal pattern and a bracket pattern
    that all match [/blog/latest]. *)
Definition blog : @Legacy.AuthRules unit unit unit :=
  [("/blog/*", [Spec.does [Legacy.CallRedirect "/wildcard" None]]);
   ("/blog/latest", [Spec.does [Legacy.CallRedirect "/literal" None]]);
   ("/blog/[slug]", [Spec.does [Legacy.CallNext]])].

Definition blogRequest : Legacy.Request :=
  {| Legacy.req_url := "https://example.com/blog/latest";
     Legacy.req_pathname := "/blog/latest";
     Legacy.req_resolves := Spec.pathAbsolute |}.


End Scenarios.

Import JS Priority.

(** * Properties *)

(** ** Strings *)

Section StringFacts.

Lemma string_app_cons (c : ascii) (a b : string) :
  String c a +:+ b = String c (a +:+ b).
Proof. reflexivity. Qed.

Lemma string_app_nil (b : string) : "" +:+ b = b.
Proof. reflexivity. Qed.

Lemma string_length_app (a b : string) :
  String.length (a +:+ b) = (String.length a + String.length b)%nat.
Proof.
  induction a as [|c a IH]; [done|].
  rewrite string_app_cons. simpl. by rewrite IH.
Qed.

Lemma string_app_empty_r (a : string) : a +:+ "" = a.
Proof. induction a as [|c a IH]; [done|]. by rewrite string_app_cons, IH. Qed.

Lemma string_app_assoc (a b c : string) : (a +:+ b) +:+ c = a +:+ (b +:+ c).
Proof. induction a as [|x a IH]; [done|]. by rewrite !string_app_cons, IH. Qed.

Lemma substring_0_all (s : string) :
  String.substring 0 (String.length s) s = s.
Proof. induction s as [|c s IH]; simpl; [done | by rewrite IH]. Qed.

Lemma substring_0_app (a b : string) :
  String.substring 0 (String.length a) (a +:+ b) = a.
Proof.
  induction a as [|c a IH]; [by destruct b|].
  rewrite string_app_cons. simpl. by rewrite IH.
Qed.

Lemma substring_skip_app (a b : string) (m : nat) :
  String.substring (String.length a) m (a +:+ b) = String.substring 0 m b.
Proof.
  induction a as [|c a IH]; [done|]. rewrite string_app_cons. apply IH.
Qed.

Lemma substring_cut (s : string) (n : nat) :
  (n <= String.length s)%nat ->
  s = String.substring 0 n s
      +:+ String.substring n (String.length s - n) s.
Proof.
  revert n; induction s as [|c s IH]; intros [|n] Hn; simpl in *;
    try lia; try done.
  - by rewrite substring_0_all.
  - rewrite string_app_cons. f_equal. apply (IH n); lia.
Qed.

Lemma startsWith_spec (s p : string) :
  startsWith s p = true <-> exists r, s = p +:+ r.
Proof.
  unfold startsWith. revert s; induction p as [|c p IH]; intros s; simpl.
  - split; [intros _; by exists s | by destruct s].
  - destruct s as [|d s]; simpl.
    + split; [done | by intros [r Hr]].
    + destruct (ascii_dec c d) as [->|Hne].
      * rewrite IH. split; intros [r Hr]; exists r.
        -- by rewrite string_app_cons, Hr.
        -- rewrite string_app_cons in Hr. by injection Hr.
      * split; [done | intros [r Hr]].
        rewrite string_app_cons in Hr. injection Hr as Hc _. congruence.
Qed.

Lemma endsWith_spec (s suf : string) :
  endsWith s suf = true <-> exists r, s = r +:+ suf.
Proof.
  unfold endsWith. rewrite andb_true_iff, Nat.leb_le, String.eqb_eq. split.
  - intros [Hle Hsub].
    exists (String.substring 0 (String.length s - String.length suf) s).
    pose proof (substring_cut s (String.length s - String.length suf)) as Hcut.
    replace (String.length s - (String.length s - String.length suf))%nat
      with (String.length suf) in Hcut by lia.
    rewrite Hsub in Hcut. apply Hcut; lia.
  - intros [r ->]. rewrite string_length_app. split; [lia|].
    replace (String.length r + String.length suf - String.length suf)%nat
      with (String.length r) by lia.
    by rewrite substring_skip_app, substring_0_all.
Qed.

(** [s.slice(0, -k)] removes a suffix of length [k]. *)
Lemma slice_drop_suffix (r suf : string) :
  suf <> "" ->
  slice (r +:+ suf) 0 (Some (- Z.of_nat (String.length suf))) = r.
Proof.
  intros Hsuf. unfold slice. rewrite string_length_app.
  assert (0 < String.length suf)%nat by (destruct suf; [done | simpl; lia]).
  replace (0 <? 0) with false by done.
  destruct (Z.ltb_spec (- Z.of_nat (String.length suf)) 0); [|lia].
  replace (Z.to_nat (0 `min` _)) with 0%nat by lia.
  replace (Z.to_nat _) with (String.length r) by lia.
  apply substring_0_app.
Qed.

(** [s.slice(n)] removes a prefix of length [n]. *)
Lemma slice_drop_prefix (p r : string) :
  slice (p +:+ r) (Z.of_nat (String.length p)) None = r.
Proof.
  unfold slice. rewrite string_length_app.
  destruct (Z.ltb_spec (Z.of_nat (String.length p)) 0); [lia|].
  replace (Z.to_nat (_ `min` _)) with (String.length p) by lia.
  replace (Z.to_nat _) with (String.length r) by lia.
  by rewrite substring_skip_app, substring_0_all.
Qed.

Lemma slice_drop_glob (s : string) : slice (s +:+ "/*") 0 (Some (-2)) = s.
Proof. by apply (slice_drop_suffix s "/*"). Qed.

Lemma stripGlob_glob (s : string) : stripGlob (s +:+ "/*") = s.
Proof.
  unfold stripGlob.
  destruct (endsWith (s +:+ "/*") "/*") eqn:Hends.
  - by apply (slice_drop_suffix s "/*").
  - assert (endsWith (s +:+ "/*") "/*" = true) by (apply endsWith_spec; eauto).
    congruence.
Qed.

Lemma stripGlob_other (s : string) : endsWith s "/*" = false -> stripGlob s = s.
Proof. unfold stripGlob. by intros ->. Qed.

Lemma string_app_inv_head (a b c : string) : a +:+ b = a +:+ c -> b = c.
Proof.
  induction a as [|x a IH]; [done|].
  rewrite !string_app_cons. intros [= H]; auto.
Qed.

Lemma string_app_self (a b : string) : a +:+ b = a -> b = "".
Proof.
  intros H. apply (string_app_inv_head a). by rewrite string_app_empty_r.
Qed.

End StringFacts.

(** ** The priority calculator *)

Section PriorityFacts.
Import Spec.

Lemma split_cons (c : ascii) (s : string) :
  split "/" (String c s) =
    if Ascii.eqb c "/" then "" :: split "/" s
    else match split "/" s with
         | [] => [String c ""]
         | piece :: pieces => String c piece :: pieces
         end.
Proof. reflexivity. Qed.

Lemma split_nonempty (s : string) : split "/" s <> [].
Proof.
  induction s as [|c s IH]; [done|]. rewrite split_cons.
  destruct (Ascii.eqb c "/"); [done|]. by destruct (split "/" s).
Qed.

Lemma split_length (s : string) : length (split "/" s) = segmentCount s.
Proof.
  unfold segmentCount. induction s as [|c s IH]; [done|].
  rewrite split_cons. simpl slashes.
  destruct (Ascii.eqb c "/"); simpl; [by rewrite IH|].
  pose proof (split_nonempty s).
  destruct (split "/" s) as [|piece pieces]; [done|]. simpl in *. lia.
Qed.

(** Both readings of the scan agree with the code's
    [split('/').filter(Boolean)]: from outside a run it counts every
    non-empty piece, from inside one it skips the first piece. *)
Lemma split_runs (s : string) :
  runsFrom false s = length (List.filter truthy (split "/" s)) /\
  runsFrom true s = length (List.filter truthy (tail (split "/" s))).
Proof.
  induction s as [|c s [IHout IHin]]; [done|].
  rewrite split_cons. simpl runsFrom.
  destruct (Ascii.eqb c "/"); [by simpl|].
  pose proof (split_nonempty s).
  destruct (split "/" s) as [|piece pieces]; [done|].
  simpl in *. rewrite IHin. split; lia.
Qed.

Lemma calculatePriority_exact (pattern : string) :
  calculatePriority pattern true = Z.of_nat (segmentCount pattern) * 10.
Proof. unfold calculatePriority. by rewrite split_length. Qed.

Lemma calculatePriority_prefix (pattern : string) :
  calculatePriority pattern false =
    1000 + (100 - Z.of_nat (nonEmptySegments (stripGlob pattern))).
Proof.
  unfold calculatePriority, nonEmptySegments.
  by rewrite (proj1 (split_runs _)).
Qed.

(** C1, as amended.  An exact pattern of [n] segments (empty ones counted,
    so [/users] has two) has priority [10 * n]; a prefix pattern has priority
    [1000 + (100 - s)], where [s] counts the non-empty segments left once one
    trailing [/*] is stripped; and for patterns of at most 100 segments each
    the exact priority is strictly below the prefix priority unless both
    counts are exactly 100 (they are then both 1000). *)
Theorem calculatePriority_formula (exact prefix base : string) :
  calculatePriority exact true = Z.of_nat (segmentCount exact) * 10 /\
  calculatePriority prefix false =
    1000 + (100 - Z.of_nat (nonEmptySegments (stripGlob prefix))) /\
  stripGlob (base +:+ "/*") = base /\
  (endsWith prefix "/*" = false -> stripGlob prefix = prefix) /\
  ((segmentCount exact <= 100)%nat ->
   (nonEmptySegments (stripGlob prefix) <= 100)%nat ->
   ~ (segmentCount exact = 100%nat /\
      nonEmptySegments (stripGlob prefix) = 100%nat) ->
   calculatePriority exact true < calculatePriority prefix false).
Proof.
  split_and!.
  - apply calculatePriority_exact.
  - apply calculatePriority_prefix.
  - apply stripGlob_glob.
  - apply stripGlob_other.
  - rewrite calculatePriority_exact, calculatePriority_prefix. lia.
Qed.

Lemma calculatePriority_formula_witness :
  calculatePriority "/users/[id]" true < calculatePriority "/admin/*" false.
Proof.
  apply (calculatePriority_formula "/users/[id]" "/admin/*" "/admin");
    vm_compute; lia.
Defined.

(** C1, as stated, fails at the ceiling: an exact pattern of 100 segments
    and a prefix pattern of 100 segments both get priority 1000. *)
Lemma exact_priority_meets_prefix_priority :
  ~ (forall exact prefix : string,
       (segmentCount exact <= 100)%nat ->
       (nonEmptySegments (stripGlob prefix) <= 100)%nat ->
       calculatePriority exact true < calculatePriority prefix false).
Proof.
  intros H.
  specialize (H (deepPath 99) (deepPath 100)).
  assert (calculatePriority (deepPath 99) true = 1000) as He
    by (vm_compute; reflexivity).
  assert (calculatePriority (deepPath 100) false = 1000) as Hp
    by (vm_compute; reflexivity).
  rewrite He, Hp in H.
  assert (1000 < 1000); [|lia].
  apply H; vm_compute; lia.
Qed.

End PriorityFacts.

(** ** Route resolution *)

Section ResolutionFacts.
Import Builder Spec.
Context {T V W E : Type}.

Local Abbreviation Route := (@RouteDefinition T V W E).
Local Abbreviation Table := (@MiddlewareBuilder T V W E).

Lemma insertByPriority_perm (r : Route) (l : list Route) :
  insertByPriority r l ≡ₚ r :: l.
Proof.
  induction l as [|r' l IH]; simpl; [done|].
  destruct (priority r - priority r' <=? 0); [done|].
  rewrite IH. apply Permutation_swap.
Qed.

Lemma sortByPriority_perm (l : list Route) : sortByPriority l ≡ₚ l.
Proof.
  induction l as [|r l IH]; simpl; [done|].
  by rewrite insertByPriority_perm, IH.
Qed.

Lemma insertByPriority_sorted (r : Route) (l : list Route) :
  StronglySorted byPriority l ->
  StronglySorted byPriority (insertByPriority r l).
Proof.
  induction 1 as [|r' l Hsorted IH Hall]; simpl.
  - repeat constructor.
  - destruct (Z.leb_spec (priority r - priority r') 0) as [Hle|Hgt].
    + constructor; [by constructor|].
      constructor; [unfold byPriority; lia|].
      eapply Forall_impl; [exact Hall|]. unfold byPriority. intros; lia.
    + constructor; [exact IH|].
      rewrite insertByPriority_perm.
      constructor; [unfold byPriority; lia | exact Hall].
Qed.

Lemma sortByPriority_sorted (l : list Route) :
  StronglySorted byPriority (sortByPriority l).
Proof.
  induction l as [|r l IH]; simpl; [constructor|].
  by apply insertByPriority_sorted.
Qed.

(** A route returned by [findMatchingRoute] is a registered route that
    matches the path. *)
Lemma findMatchingRoute_Some (b : Table) (path : string) (r : Route) :
  findMatchingRoute b path = Some r ->
  r ∈ routes b /\ routeMatches path r = true.
Proof.
  unfold findMatchingRoute. intros Hfind.
  apply find_some in Hfind as [Hin Hmatch]. split; [|done].
  rewrite <- (sortByPriority_perm (routes b)). by apply list_elem_of_In.
Qed.

Lemma matchRoute_exact (path pattern : string) (prefix : option string) :
  matchRoute path pattern true prefix = true <-> path = pattern.
Proof. unfold matchRoute. apply String.eqb_eq. Qed.

(** The prefix match of the router stops at segments: a path that goes on
    inside the segment is not under [base/*]. *)
Lemma matchRoute_inside_segment (base rest : string) (c : ascii) :
  c <> "/"%char ->
  matchRoute (base +:+ String c rest) (base +:+ "/*") false None = false.
Proof.
  intros Hc. unfold matchRoute. rewrite stripGlob_glob.
  apply orb_false_iff. split.
  - apply String.eqb_neq. by intros H%string_app_self.
  - apply not_true_is_false. intros [more H]%startsWith_spec.
    rewrite string_app_assoc in H. apply string_app_inv_head in H.
    rewrite string_app_cons in H. by injection H as -> _.
Qed.

(** C2.  With the prefix routes [/admin] and [/admin/users] registered in
    either order, [/admin/users/5] resolves to the [/admin/users] route;
    resolution takes the first matching route of the routes sorted by
    ascending priority. *)
Theorem deeper_prefix_wins (options : @MiddlewareBuilderOptions T V W E)
    (rulesAdmin rulesUsers : list (@MiddlewareRule T V W E)) :
  let b := constructor options in
  let adminUsers : Route :=
    {| pattern := "/admin/users"; rules := rulesUsers; priority := 1098;
       isExact := false; prefix := Some "/admin/users";
       metadata := defaultMetadata b |} in
  findMatchingRoute
    (prefix_ (prefix_ b "/admin" rulesAdmin) "/admin/users" rulesUsers)
    "/admin/users/5" = Some adminUsers /\
  findMatchingRoute
    (prefix_ (prefix_ b "/admin/users" rulesUsers) "/admin" rulesAdmin)
    "/admin/users/5" = Some adminUsers /\
  (forall (t : Table) (path : string),
     findMatchingRoute t path =
       List.find (routeMatches path) (sortByPriority (routes t)) /\
     sortByPriority (routes t) ≡ₚ routes t /\
     StronglySorted byPriority (sortByPriority (routes t))).
Proof.
  split_and!.
  - reflexivity.
  - reflexivity.
  - intros t path. split_and!; [done | apply sortByPriority_perm |
                                 apply sortByPriority_sorted].
Qed.

(** C10.  With [isExact = true], [matchRoute] is string equality, so an
    exact route is only ever resolved for the path that is its pattern,
    letter for letter: the exact route [/users/[id]] is not resolved for
    [/users/42], only for [/users/[id]] itself, although [extractParams]
    on that pattern and path binds [id] to [42]. *)
Theorem exact_route_needs_literal_path
    (options : @MiddlewareBuilderOptions T V W E)
    (rs : list (@MiddlewareRule T V W E))
    (t : Table) (path pat : string) (pre : option string) (r : Route) :
  (matchRoute path pat true pre = true <-> path = pat) /\
  (findMatchingRoute t path = Some r -> isExact r = true ->
   pattern r = path) /\
  findMatchingRoute (exact (constructor options) "/users/[id]" rs)
    "/users/42" = None /\
  (exists r', findMatchingRoute (exact (constructor options) "/users/[id]" rs)
    "/users/[id]" = Some r' /\ pattern r' = "/users/[id]") /\
  extractParams "/users/42" "/users/[id]" true None = {[ "id" := "42" ]}.
Proof.
  split_and!.
  - apply matchRoute_exact.
  - intros Hfind Hexact. apply findMatchingRoute_Some in Hfind as [_ Hm].
    unfold routeMatches in Hm. rewrite Hexact in Hm.
    symmetry. by apply matchRoute_exact in Hm.
  - reflexivity.
  - eexists. split; reflexivity.
  - by vm_compute.
Qed.

End ResolutionFacts.

(** ** Parameter extraction *)

Section ExtractFacts.

Lemma at_or_empty_default (parts : list string) (i : nat) :
  at_or_empty parts i = default "" (parts !! i).
Proof.
  unfold at_or_empty. destruct (parts !! i) as [part|]; [|done].
  unfold truthy. simpl. by destruct (String.eqb_spec part "") as [->|].
Qed.

Lemma slice_bracket (name : string) :
  slice ("[" +:+ name +:+ "]") 1 (Some (-1)) = name.
Proof.
  unfold slice. rewrite string_app_cons, string_app_nil. simpl String.length.
  rewrite string_length_app. simpl String.length.
  replace (1 <? 0) with false by done. replace (-1 <? 0) with true by done.
  replace (Z.to_nat (1 `min` _)) with 1%nat by lia.
  replace (Z.to_nat _) with (String.length name) by lia.
  simpl. apply substring_0_app.
Qed.

Lemma ends_cons (c : ascii) (r r' : string) :
  String c r = r' +:+ "]" -> r = "" \/ exists r'', r = r'' +:+ "]".
Proof.
  destruct r' as [|d r']; [rewrite string_app_nil | rewrite string_app_cons];
    intros [= _ ->]; eauto.
Qed.

Lemma isBracket_spec (part : string) :
  isBracket part = true <-> exists name, part = "[" +:+ name +:+ "]".
Proof.
  unfold isBracket. rewrite andb_true_iff, startsWith_spec, endsWith_spec.
  split.
  - intros [[r Hr] [r' Hr']].
    rewrite string_app_cons, string_app_nil in Hr. subst part.
    destruct (ends_cons _ _ _ Hr') as [->|[r'' ->]]; [|by exists r''].
    destruct r' as [|d [|d' r']]; discriminate.
  - intros [name ->]. split; [by eexists|].
    exists ("[" +:+ name). by rewrite string_app_assoc.
Qed.

Lemma isBracket_name (part : string) :
  isBracket part = true -> part = "[" +:+ slice part 1 (Some (-1)) +:+ "]".
Proof.
  intros [name ->]%isBracket_spec. by rewrite slice_bracket.
Qed.

Lemma setProperty_ne (o : gmap string string) (key v name : string) :
  key <> name -> setProperty o key v !! name = o !! name.
Proof.
  intros Hne. unfold setProperty.
  destruct (String.eqb key "__proto__"); [done|].
  by apply lookup_insert_ne.
Qed.

Lemma setProperty_eq (o : gmap string string) (key v : string) :
  key <> "__proto__" -> setProperty o key v !! key = Some v.
Proof.
  intros Hkey. unfold setProperty.
  destruct (String.eqb_spec key "__proto__"); [done|].
  apply lookup_insert_eq.
Qed.

Lemma setProperty_proto (o : gmap string string) (key v : string) :
  setProperty o key v !! "__proto__" = o !! "__proto__".
Proof.
  unfold setProperty.
  destruct (String.eqb_spec key "__proto__") as [|Hkey]; [done|].
  by apply lookup_insert_ne.
Qed.

Lemma bindBrackets_other (parts : list string) (index : nat)
    (pathParts : list string) (params : gmap string string) (name : string) :
  (forall j, parts !! j <> Some ("[" +:+ name +:+ "]")) ->
  bindBrackets parts index pathParts params !! name = params !! name.
Proof.
  revert index params.
  induction parts as [|part rest IH]; intros index params Hnone; [done|].
  simpl. rewrite IH by (intros j; apply (Hnone (S j))).
  destruct (isBracket part) eqn:Hb; [|done].
  apply setProperty_ne. intros Hname.
  apply (Hnone 0%nat). simpl. f_equal.
  rewrite <- Hname. by apply isBracket_name.
Qed.

(** The assignment to [__proto__] stores nothing. *)
Lemma bindBrackets_proto (parts : list string) (index : nat)
    (pathParts : list string) (params : gmap string string) :
  bindBrackets parts index pathParts params !! "__proto__"
    = params !! "__proto__".
Proof.
  revert index params.
  induction parts as [|part rest IH]; intros index params; [done|].
  simpl. rewrite IH.
  destruct (isBracket part); [|done]. apply setProperty_proto.
Qed.

Lemma bindBrackets_last (parts : list string) (index : nat)
    (pathParts : list string) (params : gmap string string)
    (i : nat) (name : string) :
  name <> "__proto__" ->
  parts !! i = Some ("[" +:+ name +:+ "]") ->
  (forall j, (i < j)%nat -> parts !! j <> Some ("[" +:+ name +:+ "]")) ->
  bindBrackets parts index pathParts params !! name =
    Some (at_or_empty pathParts (index + i)).
Proof.
  intros Hname. revert index params i.
  induction parts as [|part rest IH]; intros index params i Hi Hlast;
    [done|].
  destruct i as [|i]; simpl in *.
  - injection Hi as ->.
    rewrite bindBrackets_other by (intros j; apply (Hlast (S j)); lia).
    assert (isBracket ("[" +:+ name +:+ "]") = true) as ->
      by (apply isBracket_spec; eauto).
    rewrite slice_bracket, Nat.add_0_r. by apply setProperty_eq.
  - rewrite (IH (S index) _ i Hi) by (intros j Hj; apply (Hlast (S j)); lia).
    do 2 f_equal. lia.
Qed.

(** Every key of the result was there before or names a bracket segment. *)
Lemma bindBrackets_keys (parts : list string) (index : nat)
    (pathParts : list string) (params : gmap string string) (name : string) :
  bindBrackets parts index pathParts params !! name <> None ->
  params !! name <> None \/
  exists i, parts !! i = Some ("[" +:+ name +:+ "]").
Proof.
  revert index params.
  induction parts as [|part rest IH]; intros index params Hsome;
    [by left|].
  simpl in Hsome. apply IH in Hsome as [Hsome|[i Hi]];
    [|right; by exists (S i)].
  destruct (isBracket part) eqn:Hb; [|by left].
  destruct (decide (slice part 1 (Some (-1)) = name)) as [Hname|Hne].
  - right. exists 0%nat. simpl. f_equal.
    rewrite <- Hname. by apply isBracket_name.
  - left. by rewrite setProperty_ne in Hsome.
Qed.

Lemma includes_app (a b : string) (c : ascii) :
  includes (a +:+ b) c = includes a c || includes b c.
Proof.
  induction a as [|d a IH]; [done|]. rewrite string_app_cons. simpl.
  rewrite IH. by rewrite orb_assoc.
Qed.

(** A pattern with a bracket segment passes the guard of [extractParams]. *)
Lemma includes_piece (s piece : string) (c : ascii) :
  c <> "/"%char -> piece ∈ split "/" s -> includes piece c = true ->
  includes s c = true.
Proof.
  intros Hc. revert piece.
  induction s as [|d s IH]; intros piece Hin Hinc.
  - apply list_elem_of_singleton in Hin as ->. done.
  - rewrite split_cons in Hin. simpl.
    destruct (Ascii.eqb_spec d "/") as [->|Hd].
    + apply elem_of_cons in Hin as [->|Hin]; [done|].
      rewrite (IH piece Hin Hinc). by rewrite orb_true_r.
    + pose proof (split_nonempty s).
      destruct (split "/" s) as [|first pieces] eqn:Hs; [done|].
      apply elem_of_cons in Hin as [->|Hin].
      * simpl in Hinc. apply orb_true_iff in Hinc as [->|Hinc]; [done|].
        rewrite (IH first) by (done || left). by rewrite orb_true_r.
      * rewrite (IH piece) by (done || by right). by rewrite orb_true_r.
Qed.

Lemma bracket_guard (pat name : string) (i : nat) :
  split "/" pat !! i = Some ("[" +:+ name +:+ "]") ->
  includes pat "[" && includes pat "]" = true.
Proof.
  intros Hi. apply list_elem_of_lookup_2 in Hi.
  apply andb_true_iff. split.
  - apply (includes_piece pat _ "["%char ltac:(done) Hi).
    by rewrite string_app_cons.
  - apply (includes_piece pat _ "]"%char ltac:(done) Hi).
    rewrite <- string_app_assoc, includes_app. simpl. by rewrite orb_true_r.
Qed.

End ExtractFacts.

Section ExtractParams.

Lemma bindWildcard_at (p rest : string) :
  p <> "" ->
  bindWildcard (p +:+ "/" +:+ rest) false (Some p) ∅ !! "*" = Some rest.
Proof.
  intros Hp. unfold bindWildcard.
  assert (truthy p = true) as ->
    by (unfold truthy; by destruct (String.eqb_spec p "")).
  simpl negb. simpl andb. cbv zeta.
  rewrite slice_drop_prefix.
  assert (startsWith ("/" +:+ rest) "/" = true) as ->
    by (apply startsWith_spec; eauto).
  rewrite lookup_insert_eq. f_equal.
  apply (slice_drop_prefix "/" rest).
Qed.

Lemma bindWildcard_prefix (p : string) :
  p <> "" -> bindWildcard p false (Some p) ∅ !! "*" = Some "".
Proof.
  intros Hp. unfold bindWildcard.
  assert (truthy p = true) as ->
    by (unfold truthy; by destruct (String.eqb_spec p "")).
  simpl negb. simpl andb. cbv zeta.
  pose proof (slice_drop_prefix p "") as Hslice.
  rewrite string_app_empty_r in Hslice. rewrite Hslice.
  simpl. apply lookup_insert_eq.
Qed.

Lemma bindWildcard_keys (path : string) (isExact : bool)
    (pre : option string) (name : string) :
  bindWildcard path isExact pre ∅ !! name <> None ->
  name = "*" /\ isExact = false /\ exists p, pre = Some p /\ p <> "".
Proof.
  unfold bindWildcard. destruct pre as [p|]; [|done].
  destruct isExact; [done|]. simpl negb. simpl andb.
  unfold truthy at 1. destruct (String.eqb_spec p "") as [->|Hp]; [done|].
  simpl negb. cbv iota zeta. intros Hsome.
  assert (name = "*") as ->.
  { destruct (decide (name = "*")) as [|Hne]; [done|]. exfalso.
    apply Hsome. repeat case_match; by rewrite ?lookup_insert_ne. }
  eauto.
Qed.

(** C3, as amended.  [extractParams] binds the name of a pattern segment
    [[name]], for every name but [__proto__], to the path segment at the
    index of the last segment of that name, the empty string when the path
    has no segment there, without any validation; for a route that is not
    exact and has a non-empty stored prefix, and whose pattern has no
    segment [[*]], it binds [*] to what follows the slash after the prefix,
    and to the empty string when the path is the prefix; the two rules fill
    one mapping, which binds nothing else.  The name [__proto__] is never
    bound: the assignment reaches the setter that every object inherits,
    which ignores a string. *)
Theorem extractParams_bindings (path pat : string) (isExact : bool)
    (pre : option string) :
  let params := extractParams path pat isExact pre in
  (forall (i : nat) (name : string),
     name <> "__proto__" ->
     split "/" pat !! i = Some ("[" +:+ name +:+ "]") ->
     (forall j, (i < j)%nat ->
        split "/" pat !! j <> Some ("[" +:+ name +:+ "]")) ->
     params !! name = Some (default "" (split "/" path !! i))) /\
  (forall p rest : string,
     isExact = false -> pre = Some p -> p <> "" ->
     (forall j, split "/" pat !! j <> Some "[*]") ->
     (path = p +:+ "/" +:+ rest -> params !! "*" = Some rest) /\
     (path = p -> params !! "*" = Some "")) /\
  (forall name : string,
     params !! name <> None ->
     name <> "__proto__" /\
     ((exists i, split "/" pat !! i = Some ("[" +:+ name +:+ "]")) \/
      (name = "*" /\ isExact = false /\
       exists p, pre = Some p /\ p <> ""))) /\
  params !! "__proto__" = None /\
  extractParams "/users/42" "/users/[id]" true None = {[ "id" := "42" ]} /\
  extractParams "/docs/a/b" "/docs" false (Some "/docs") =
    {[ "*" := "a/b" ]} /\
  extractParams "/docs" "/docs" false (Some "/docs") = {[ "*" := "" ]} /\
  extractParams "/[a]/b/c/d" "/[a]/b" false (Some "/[a]/b") =
    {[ "*" := "c/d"; "a" := "[a]" ]}.
Proof.
  cbv zeta.
  assert (extractParams path pat isExact pre !! "__proto__" = None)
    as Hproto.
  { unfold extractParams.
    assert (bindWildcard path isExact pre ∅ !! "__proto__" = None) as Hw.
    { destruct (bindWildcard path isExact pre ∅ !! "__proto__") eqn:Hsome;
        [|done].
      by destruct (bindWildcard_keys path isExact pre "__proto__")
        as [? _]; [congruence|]. }
    destruct (_ && _); [|done]. by rewrite bindBrackets_proto. }
  split_and!.
  - intros i name Hname Hi Hlast. unfold extractParams.
    rewrite (bracket_guard _ _ _ Hi).
    rewrite (bindBrackets_last _ _ _ _ i name Hname Hi Hlast).
    by rewrite at_or_empty_default.
  - intros p rest -> -> Hp Hstar.
    assert (forall m : gmap string string,
      (if includes pat "[" && includes pat "]"
       then bindBrackets (split "/" pat) 0 (split "/" path) m else m)
        !! "*" = m !! "*") as Hkeep.
    { intros m. destruct (_ && _); [|done]. by apply bindBrackets_other. }
    unfold extractParams.
    split; intros ->; rewrite Hkeep;
      [by apply bindWildcard_at | by apply bindWildcard_prefix].
  - intros name Hsome.
    split; [intros ->; by rewrite Hproto in Hsome|].
    unfold extractParams in Hsome.
    destruct (_ && _).
    + apply bindBrackets_keys in Hsome as [Hsome|Hi]; [|by left].
      right. by apply (bindWildcard_keys path).
    + right. by apply (bindWildcard_keys path).
  - done.
  - by vm_compute.
  - by vm_compute.
  - by vm_compute.
  - by vm_compute.
Qed.

Lemma extractParams_bindings_witness :
  extractParams "/shop/7/cart" "/shop/[id]" false (Some "/shop/[id]")
    !! "id" = Some "7" /\
  extractParams "/docs/a/b" "/docs" false (Some "/docs") !! "*" = Some "a/b".
Proof.
  split.
  - apply (extractParams_bindings "/shop/7/cart" "/shop/[id]" false
             (Some "/shop/[id]")) with (i := 2%nat) (name := "id").
    + done.
    + reflexivity.
    + intros [|[|[|j]]] Hj; (lia || by vm_compute).
  - apply (extractParams_bindings "/docs/a/b" "/docs" false (Some "/docs"))
      with (p := "/docs") (rest := "a/b"); try done.
    intros [|[|j]]; by vm_compute.
Defined.

(** C3, as stated, fails: of two segments with one name the later one is
    kept; a segment [[*]] replaces the wildcard binding; and an empty stored
    prefix (the one [prefix('/')] stores) binds no wildcard at all. *)
Lemma extractParams_rules_as_stated_fail :
  ~ Stated.bracketRule /\ ~ Stated.wildcardRule /\
  extractParams "/a/b" "/[id]/[id]" true None = {[ "id" := "b" ]} /\
  extractParams "/docs/a/b" "/docs/[*]" false (Some "/docs") =
    {[ "*" := "a" ]} /\
  extractParams "/x" "/" false (Some "") = ∅.
Proof.
  split_and!; try by vm_compute.
  - intros H.
    specialize (H "/a/b" "/[id]/[id]" true None 1%nat "id" eq_refl).
    by vm_compute in H.
  - intros H.
    destruct (H "/docs/a/b" "/docs/[*]" "/docs" "a/b") as [H1 _].
    specialize (H1 eq_refl). by vm_compute in H1.
Qed.

End ExtractParams.

(** ** The pipeline *)

Section PipelineFacts.
Import Builder Spec.
Context {T V W E : Type}.

Local Abbreviation Plugins := (list (@Plugin T V W E)).
Local Abbreviation Rules := (list (@MiddlewareRule T V W E)).
Local Abbreviation Table := (@MiddlewareBuilder T V W E).
Local Abbreviation State := (@Store T V W).

Lemma ruleCalls_app (evs evs' : list Event) :
  ruleCalls (evs ++ evs') = ruleCalls evs ++ ruleCalls evs'.
Proof. apply omap_app. Qed.

Lemma hookCalls_app (k : HookName) (evs evs' : list Event) :
  hookCalls k (evs ++ evs') = hookCalls k evs ++ hookCalls k evs'.
Proof. apply omap_app. Qed.

(** One plugin's hook, with the [try]/[catch] around it: it never throws,
    and calls no rule. *)
Lemma guarded_hook_normal (plugin : string) (k : HookName)
    (f : @User T V W E unit) (st : State) :
  exists st' evs,
    tryCatch (emit (CallHook plugin k) >> call f)
      (fun _ => emit (ConsoleError plugin k)) st = (Normal tt, st', evs) /\
    ruleCalls evs = [] /\ hookCalls k evs = [plugin].
Proof.
  unfold tryCatch, bind, emit, call.
  destruct (f st) as [[[]|e] st1]; do 2 eexists; split_and!; try done;
    simpl; by rewrite decide_True.
Qed.

(** Every plugin that has the hook is called, in registration order,
    whatever the hooks before it did; nothing is thrown. *)
Lemma executePluginHook_normal (ps : Plugins) (h : HookCall) (st : State) :
  exists st' evs,
    executePluginHook ps h st = (Normal tt, st', evs) /\
    ruleCalls evs = [] /\
    hookCalls (hookName h) evs =
      map name (List.filter (fun p => bool_decide (hookFn p h <> None)) ps).
Proof.
  revert st. induction ps as [|p ps IH]; intros st.
  - by do 2 eexists.
  - simpl. unfold bind at 1.
    destruct (hookFn p h) as [f|] eqn:Hf.
    + destruct (guarded_hook_normal (name p) (hookName h) f st)
        as (st1 & ev1 & -> & Hr1 & Hh1).
      destruct (IH st1) as (st2 & ev2 & -> & Hr2 & Hh2).
      do 2 eexists. split_and!; [done | |].
      * by rewrite ruleCalls_app, Hr1, Hr2.
      * by rewrite hookCalls_app, Hh1, Hh2.
    + unfold ret at 1.
      destruct (IH st) as (st2 & ev2 & -> & Hr2 & Hh2).
      do 2 eexists. split_and!; [done | done |].
      simpl. by rewrite Hh2.
Qed.

(** Running the hooks and going on: the hooks only add events that are not
    calls of rules. *)
Lemma hooks_then {B} (ps : Plugins) (h : HookCall) (k : @Eff T V W E B)
    (st : State) :
  exists st1 ev1,
    ruleCalls ev1 = [] /\
    (executePluginHook ps h >> k) st =
      let '(c, st2, ev2) := k st1 in (c, st2, ev1 ++ ev2).
Proof.
  destruct (executePluginHook_normal ps h st) as (st1 & ev1 & Hrun & Hr & _).
  exists st1, ev1. split; [done|]. unfold bind. by rewrite Hrun.
Qed.

(** A round of hooks only leaves the calls of that hook and their log
    lines. *)
Lemma executePluginHook_events (ps : Plugins) (h : @HookCall T V W E)
    (st : State) :
  Forall (fun ev => exists p, ev = CallHook p (hookName h)
                              \/ ev = ConsoleError p (hookName h))
    (executePluginHook ps h st).2.
Proof.
  revert st. induction ps as [|p ps IH]; intros st; [by constructor|].
  simpl. unfold bind at 1.
  destruct (hookFn p h) as [f|].
  - unfold tryCatch, bind, emit, call.
    destruct (f st) as [[[]|e] st1]; simpl;
      specialize (IH st1);
      destruct (executePluginHook ps h st1) as [[c st2] ev2]; simpl in *;
      repeat (constructor; [eauto|]); done.
  - unfold ret. specialize (IH st).
    by destruct (executePluginHook ps h st) as [[c st2] ev2].
Qed.

Lemma hook_events_other (k k' : HookName) (evs : list Event) :
  k <> k' ->
  Forall (fun ev => exists p, ev = CallHook p k \/ ev = ConsoleError p k)
    evs ->
  hookCalls k' evs = [].
Proof.
  intros Hk. induction 1 as [|ev evs [p [->| ->]] _ IH]; simpl; [done| |done].
  by rewrite decide_False.
Qed.




(** The rule chain: the rules are called in order from [index] on, and the
    completion is the one [decided] allows. *)
Lemma runRules_decided (ps : Plugins) (rs : Rules) (index : nat)
    (st : State) :
  exists c st' evs outcomes,
    runRules ps rs index st = (c, st', evs) /\
    ruleCalls evs = zip (seq index (length outcomes)) outcomes /\
    match c with
    | Normal result => decided (length rs) outcomes result
    | Throw _ => forall result, decided (length rs) outcomes result
    end.
Proof.
  revert index st. induction rs as [|rule rest IH]; intros index st; simpl.
  - destruct (hooks_then ps (AfterRequest (Some Responses.next))
                (ret Responses.next) st) as (st1 & ev1 & Hr & ->).
    exists (Normal PassThrough), st1, (ev1 ++ []), [].
    split_and!; [done | by rewrite ruleCalls_app, Hr | done].
  - destruct (hooks_then ps (BeforeRule rule)
      (let* result := callRule index rule in
       executePluginHook ps (AfterRule rule result) >>
       match result with
       | Some response =>
           executePluginHook ps (AfterRequest (Some response)) >>
           ret response
       | None => runRules ps rest (S index)
       end) st) as (st1 & ev1 & Hr1 & ->).
    unfold bind at 1, callRule at 1.
    destruct (rule st1) as [[result|e] st2].
    + destruct (hooks_then ps (AfterRule rule result)
        match result with
        | Some response =>
            executePluginHook ps (AfterRequest (Some response)) >>
            ret response
        | None => runRules ps rest (S index)
        end st2) as (st3 & ev3 & Hr3 & ->).
      destruct result as [response|].
      * destruct (hooks_then ps (AfterRequest (Some response))
                    (ret response) st3) as (st4 & ev4 & Hr4 & ->).
        exists (Normal response), st4,
          (ev1 ++ [CallRule index (Returned (Some response))]
               ++ ev3 ++ ev4 ++ []),
          [Returned (Some response)].
        split_and!; [done | | done].
        rewrite !ruleCalls_app, Hr1, Hr3, Hr4. done.
      * destruct (IH (S index) st3) as (c & st4 & ev4 & outs & -> & Hr4 & Hc).
        exists c, st4, (ev1 ++ [CallRule index (Returned None)] ++ ev3 ++ ev4),
          (Returned None :: outs).
        split_and!; [done | |].
        -- rewrite !ruleCalls_app, Hr1, Hr3, Hr4. done.
        -- destruct c; simpl; eauto.
    + exists (Throw e), st2, (ev1 ++ [CallRule index Threw]), [Threw].
      split_and!; [done | | done].
      rewrite !ruleCalls_app, Hr1. done.
Qed.

(** The same chain when the rules before the deciding one return [null]
    whatever the store. *)
Lemma runRules_first (ps : Plugins) (pre : Rules)
    (R : @MiddlewareRule T V W E) (post : Rules) (response : Response)
    (index : nat) (st : State) :
  Forall (fun rule => ruleReturns rule None) pre ->
  ruleReturns R (Some response) ->
  exists st' evs,
    runRules ps (pre ++ R :: post) index st = (Normal response, st', evs) /\
    ruleCalls evs =
      zip (seq index (S (length pre)))
          (replicate (length pre) (Returned None)
             ++ [Returned (Some response)]).
Proof.
  intros Hpre HR. revert index st.
  induction Hpre as [|rule pre Hrule Hpre IH]; intros index st; simpl.
  - destruct (hooks_then ps (BeforeRule R)
      (let* result := callRule index R in
       executePluginHook ps (AfterRule R result) >>
       match result with
       | Some response =>
           executePluginHook ps (AfterRequest (Some response)) >>
           ret response
       | None => runRules ps post (S index)
       end) st) as (st1 & ev1 & Hr1 & ->).
    unfold bind at 1, callRule at 1.
    destruct (HR st1) as (st2 & ->).
    destruct (hooks_then ps (AfterRule R (Some response))
      (executePluginHook ps (AfterRequest (Some response)) >> ret response)
      st2) as (st3 & ev3 & Hr3 & ->).
    destruct (hooks_then ps (AfterRequest (Some response))
                (ret response) st3) as (st4 & ev4 & Hr4 & ->).
    do 2 eexists. split; [done|].
    rewrite !ruleCalls_app, Hr1, Hr3, Hr4. done.
  - destruct (hooks_then ps (BeforeRule rule)
      (let* result := callRule index rule in
       executePluginHook ps (AfterRule rule result) >>
       match result with
       | Some response =>
           executePluginHook ps (AfterRequest (Some response)) >>
           ret response
       | None => runRules ps (pre ++ R :: post) (S index)
       end) st) as (st1 & ev1 & Hr1 & ->).
    unfold bind at 1, callRule at 1.
    destruct (Hrule st1) as (st2 & ->).
    destruct (hooks_then ps (AfterRule rule None)
      (runRules ps (pre ++ R :: post) (S index)) st2)
      as (st3 & ev3 & Hr3 & ->).
    destruct (IH (S index) st3) as (st4 & ev4 & -> & Hr4).
    do 2 eexists. split; [done|].
    rewrite !ruleCalls_app, Hr1, Hr3, Hr4. done.
Qed.

Lemma runRules_all_null (ps : Plugins) (rs : Rules) (index : nat)
    (st : State) :
  Forall (fun rule => ruleReturns rule None) rs ->
  exists st' evs,
    runRules ps rs index st = (Normal PassThrough, st', evs) /\
    ruleCalls evs =
      zip (seq index (length rs)) (replicate (length rs) (Returned None)).
Proof.
  intros Hrs. revert index st.
  induction Hrs as [|rule rs Hrule Hrs IH]; intros index st; simpl.
  - destruct (hooks_then ps (AfterRequest (Some Responses.next))
                (ret Responses.next) st) as (st1 & ev1 & Hr & ->).
    do 2 eexists. split; [done|]. by rewrite ruleCalls_app, Hr.
  - destruct (hooks_then ps (BeforeRule rule)
      (let* result := callRule index rule in
       executePluginHook ps (AfterRule rule result) >>
       match result with
       | Some response =>
           executePluginHook ps (AfterRequest (Some response)) >>
           ret response
       | None => runRules ps rs (S index)
       end) st) as (st1 & ev1 & Hr1 & ->).
    unfold bind at 1, callRule at 1.
    destruct (Hrule st1) as (st2 & ->).
    destruct (hooks_then ps (AfterRule rule None)
      (runRules ps rs (S index)) st2) as (st3 & ev3 & Hr3 & ->).
    destruct (IH (S index) st3) as (st4 & ev4 & -> & Hr4).
    do 2 eexists. split; [done|].
    rewrite !ruleCalls_app, Hr1, Hr3, Hr4. done.
Qed.

(** The [try] block on a path with a matching route and a fetcher that
    returns: the hooks, the resolution and the fetch, then the rule chain
    from the store they leave. *)
Lemma tryBlock_matched (b : Table) (req : Request) (st : State)
    (r : RouteDefinition) :
  findMatchingRoute b (req_pathname req) = Some r ->
  (forall w0, exists d w1, fetchUserFn b req w0 = (Normal d, w1)) ->
  exists st0 ev0,
    ruleCalls ev0 = [] /\
    tryBlock b req st =
      let '(c, st', evs) := runRules (plugins b) (rules r) 0 st0 in
      (c, st', ev0 ++ evs).
Proof.
  intros Hroute Hfetch. unfold tryBlock.
  destruct (hooks_then (plugins b) BeforeRequest (resolveAndRun b req) st)
    as (st1 & ev1 & Hr1 & ->).
  unfold resolveAndRun. rewrite Hroute.
  unfold fetchUser, bind, emit, modifyContext. simpl.
  destruct (Hfetch (world st1)) as (d & w1 & ->).
  exists
    {| context :=
         setData d
           (setMetadata (spread (ctx_metadata (context st1)) (metadata r))
              (setParams
                 (extractParams (req_pathname req) (pattern r) (isExact r)
                    (prefix r))
                 (context st1)));
       world := w1 |},
    (ev1 ++ [FindRoute (req_pathname req); FetchUser]).
  split; [by rewrite ruleCalls_app, Hr1|].
  destruct (runRules _ _ _ _) as [[c st'] evs].
  by rewrite <- app_assoc.
Qed.


(** [handlePluginErrors] never throws, and calls no rule. *)
Lemma handlePluginErrors_normal (ps : Plugins) (e : E) (st : State) :
  exists result st' evs,
    handlePluginErrors ps e st = (Normal result, st', evs) /\
    ruleCalls evs = [] /\
    (Forall onErrorSilent ps -> result = None).
Proof.
  revert st. induction ps as [|p ps IH]; intros st; simpl.
  - by exists None, st, [].
  - destruct (onError p) as [f|] eqn:Hf.
    + unfold bind at 1, tryCatch, emit, call, bind, ret.
      destruct (f e st) as [[[response|]|e'] st1] eqn:Hrun.
      * exists (Some response), st1, ([CallHook (name p) onError_] ++ []).
        split_and!; [done | done |].
        intros Hsilent. apply Forall_cons_1 in Hsilent as [Hp _].
        by destruct (Hp f Hf e st response st1).
      * destruct (IH st1) as (result & st2 & ev2 & -> & Hr2 & Hnone).
        exists result, st2, (([CallHook (name p) onError_] ++ []) ++ ev2).
        split_and!; [done | by rewrite ruleCalls_app, Hr2 |].
        intros Hsilent. apply Forall_cons_1 in Hsilent as [_ Hps]. auto.
      * destruct (IH st1) as (result & st2 & ev2 & -> & Hr2 & Hnone).
        exists result, st2,
          (([CallHook (name p) onError_]
              ++ [ConsoleError (name p) onError_] ++ []) ++ ev2).
        split_and!; [done | by rewrite ruleCalls_app, Hr2 |].
        intros Hsilent. apply Forall_cons_1 in Hsilent as [_ Hps]. auto.
    + destruct (IH st) as (result & st2 & ev2 & -> & Hr2 & Hnone).
      exists result, st2, ev2. split_and!; [done | done |].
      intros Hsilent. apply Forall_cons_1 in Hsilent as [_ Hps]. auto.
Qed.

(** The [catch] block always ends with a response; without a response from
    a plugin it is the default policy. *)
Lemma catchBlock_normal (b : Table) (req : Request) (e : E) (st : State) :
  exists response st' evs,
    catchBlock b req e st = (Normal response, st', evs) /\
    ruleCalls evs = [] /\
    (Forall onErrorSilent (plugins b) ->
     response =
       if isAuthPath (authPaths b) (req_pathname req) then Responses.next
       else Responses.redirect "/sign-in" (Some (req_url req))).
Proof.
  unfold catchBlock, bind.
  destruct (handlePluginErrors_normal (plugins b) e st)
    as (result & st1 & ev1 & -> & Hr1 & Hnone).
  destruct result as [response|].
  - exists response, st1, (ev1 ++ []).
    split_and!; [done | by rewrite ruleCalls_app, Hr1 |].
    intros Hsilent. by specialize (Hnone Hsilent).
  - destruct (isAuthPath (authPaths b) (req_pathname req));
      do 3 eexists; (split_and!; [done | by rewrite ruleCalls_app, Hr1 | done]).
Qed.

Lemma isAuthPath_spec (aps : list string) (path : string) :
  isAuthPath aps path = true <->
  exists a, a ∈ aps /\
    ((exists base rest, a = base +:+ "/*" /\ path = base +:+ rest) \/
     (endsWith a "/*" = false /\ path = a)).
Proof.
  unfold isAuthPath. rewrite existsb_exists. split.
  - intros (a & Hin & Ha). exists a. split; [by apply list_elem_of_In|].
    destruct (endsWith a "/*") eqn:Hends.
    + left. apply endsWith_spec in Hends as [base ->].
      rewrite slice_drop_glob in Ha.
      apply startsWith_spec in Ha as [rest ->]. eauto.
    + right. by apply String.eqb_eq in Ha.
  - intros (a & Hin & Ha). exists a. split; [by apply list_elem_of_In|].
    destruct Ha as [(base & rest & -> & ->)|[-> ->]].
    + assert (endsWith (base +:+ "/*") "/*" = true) as ->
        by (apply endsWith_spec; eauto).
      rewrite slice_drop_glob.
      apply startsWith_spec. eauto.
    + apply String.eqb_refl.
Qed.

(** The handler on a path with a matching route and a fetcher that returns:
    it ends as the rule chain does, or as the [catch] block when a rule
    throws. *)
Lemma build_matched (b : Table) (req : Request) (w : W)
    (r : RouteDefinition) :
  findMatchingRoute b (req_pathname req) = Some r ->
  (forall w0, exists d w1, fetchUserFn b req w0 = (Normal d, w1)) ->
  exists st0 ev0 c st1 ev1,
    ruleCalls ev0 = [] /\
    runRules (plugins b) (rules r) 0 st0 = (c, st1, ev1) /\
    match c with
    | Normal result => build b req w = (Normal result, st1, ev0 ++ ev1)
    | Throw e =>
        exists result st2 ev2,
          ruleCalls ev2 = [] /\
          build b req w = (Normal result, st2, (ev0 ++ ev1) ++ ev2)
    end.
Proof.
  intros Hroute Hfetch. unfold build, tryCatch.
  destruct (tryBlock_matched b req
              {| context := initialContext b req; world := w |} r
              Hroute Hfetch) as (st0 & ev0 & Hr0 & ->).
  destruct (runRules (plugins b) (rules r) 0 st0) as [[c st1] ev1] eqn:Hrun.
  exists st0, ev0, c, st1, ev1. split_and!; [done | done |].
  destruct c as [result|e]; [done|].
  destruct (catchBlock_normal b req e st1)
    as (response & st2 & ev2 & -> & Hr2 & _).
  by exists response, st2, ev2.
Qed.

(** C4.  On a path with a matching route (and a fetcher that returns) the
    handler calls the rules of the route in registration order and stops at
    the first one that returns a response, which is the handler's result;
    no later rule is called; if every rule returns [null] the result is the
    pass-through response.  The first part reads it off the calls actually
    made, whatever the rules do; the other two are the same for rules whose
    result does not depend on the store: with [R1 -> null, R2 -> response,
    R3] the calls are those of positions 0 and 1, and the result is the
    response of [R2]. *)
Theorem first_decision_wins (b : Table) (req : Request) (w : W)
    (r : RouteDefinition) :
  findMatchingRoute b (req_pathname req) = Some r ->
  (forall w0, exists d w1, fetchUserFn b req w0 = (Normal d, w1)) ->
  (exists result st evs outcomes,
     build b req w = (Normal result, st, evs) /\
     ruleCalls evs = zip (seq 0 (length outcomes)) outcomes /\
     decided (length (rules r)) outcomes result) /\
  (forall (pre : Rules) (R : MiddlewareRule) (post : Rules)
          (response : Response),
     rules r = pre ++ R :: post ->
     Forall (fun rule => ruleReturns rule None) pre ->
     ruleReturns R (Some response) ->
     exists st evs,
       build b req w = (Normal response, st, evs) /\
       ruleCalls evs =
         zip (seq 0 (S (length pre)))
             (replicate (length pre) (Returned None)
                ++ [Returned (Some response)])) /\
  (Forall (fun rule => ruleReturns rule None) (rules r) ->
   exists st evs,
     build b req w = (Normal PassThrough, st, evs) /\
     ruleCalls evs =
       zip (seq 0 (length (rules r)))
           (replicate (length (rules r)) (Returned None))).
Proof.
  intros Hroute Hfetch.
  destruct (build_matched b req w r Hroute Hfetch)
    as (st0 & ev0 & c & st1 & ev1 & Hr0 & Hrun & Hbuild).
  split_and!.
  - destruct (runRules_decided (plugins b) (rules r) 0 st0)
      as (c' & st1' & ev1' & outcomes & Hrun' & Hcalls & Hdecided).
    rewrite Hrun in Hrun'. injection Hrun' as <- <- <-.
    destruct c as [result|e].
    + exists result, st1, (ev0 ++ ev1), outcomes.
      split_and!; [done | by rewrite ruleCalls_app, Hr0 | done].
    + destruct Hbuild as (result & st2 & ev2 & Hr2 & Hbuild).
      exists result, st2, ((ev0 ++ ev1) ++ ev2), outcomes.
      split_and!; [done | | done].
      by rewrite !ruleCalls_app, Hr0, Hr2, Hcalls, app_nil_r.
  - intros pre R post response Hrules Hpre HR.
    destruct (runRules_first (plugins b) pre R post response 0 st0 Hpre HR)
      as (st1' & ev1' & Hrun' & Hcalls).
    rewrite <- Hrules, Hrun in Hrun'. injection Hrun' as -> <- <-.
    exists st1, (ev0 ++ ev1). split; [done|].
    by rewrite ruleCalls_app, Hr0.
  - intros Hnull.
    destruct (runRules_all_null (plugins b) (rules r) 0 st0 Hnull)
      as (st1' & ev1' & Hrun' & Hcalls).
    rewrite Hrun in Hrun'. injection Hrun' as -> <- <-.
    exists st1, (ev0 ++ ev1). split; [done|].
    by rewrite ruleCalls_app, Hr0.
Qed.

(** C5.  When the [try] block of the handler fails, with whatever was
    thrown, and no plugin's [onError] supplies a response, the handler
    returns the pass-through response if the request path is an auth path
    and the redirect to [/sign-in] otherwise.  The block fails when the
    fetcher throws and when a rule throws (resolution itself cannot).  An
    auth path is an entry equal to the path or, for an entry ending in
    [/*], one whose part before [/*] starts the path, as a string: the
    test is [path.startsWith(prefix)], without the slash that [matchRoute]
    puts after the prefix.  So for the entry [/api/*] an error on [/apix]
    passes through, and so does one on any path that goes on inside the
    last segment of an auth prefix, though the prefix match of the router
    says that such a path is not under the entry. *)
Theorem default_error_policy (b : Table) (req : Request) (w : W) :
  let path := req_pathname req in
  let st0 := {| context := initialContext b req; world := w |} in
  let fallback :=
    if isAuthPath (authPaths b) path then PassThrough
    else Redirect "/sign-in"
           (if truthy (req_url req) then req_url req
            else "http://localhost:3000") in
  (forall e st1 ev1,
     tryBlock b req st0 = (Throw e, st1, ev1) ->
     Forall onErrorSilent (plugins b) ->
     exists st2 evs, build b req w = (Normal fallback, st2, evs)) /\
  (forall r,
     findMatchingRoute b path = Some r ->
     (forall w0, exists e w1, fetchUserFn b req w0 = (Throw e, w1)) ->
     exists e st1 ev1, tryBlock b req st0 = (Throw e, st1, ev1)) /\
  (forall r (pre : Rules) (R : MiddlewareRule) (post : Rules),
     findMatchingRoute b path = Some r ->
     (forall w0, exists d w1, fetchUserFn b req w0 = (Normal d, w1)) ->
     rules r = pre ++ R :: post ->
     Forall (fun rule => ruleReturns rule None) pre ->
     ruleThrows R ->
     exists e st1 ev1, tryBlock b req st0 = (Throw e, st1, ev1)) /\
  (isAuthPath (authPaths b) path = true <->
   exists a, a ∈ authPaths b /\
     ((exists base rest, a = base +:+ "/*" /\ path = base +:+ rest) \/
      (endsWith a "/*" = false /\ path = a))) /\
  isAuthPath ["/api/*"] "/api/x" = true /\
  isAuthPath [] "/api/x" = false /\
  isAuthPath ["/api/*"] "/apix" = true /\
  matchRoute "/apix" "/api/*" false None = false /\
  (forall e st1 ev1 (base rest : string) (c : ascii),
     tryBlock b req st0 = (Throw e, st1, ev1) ->
     Forall onErrorSilent (plugins b) ->
     base +:+ "/*" ∈ authPaths b ->
     path = base +:+ String c rest ->
     c <> "/"%char ->
     (exists st2 evs, build b req w = (Normal PassThrough, st2, evs)) /\
     matchRoute path (base +:+ "/*") false None = false).
Proof.
  cbv zeta. split_and!; try done.
  - intros e st1 ev1 Htry Hsilent. unfold build, tryCatch. rewrite Htry.
    destruct (catchBlock_normal b req e st1)
      as (response & st2 & ev2 & -> & _ & Hpolicy).
    rewrite (Hpolicy Hsilent). by do 2 eexists.
  - intros r Hroute Hfetch. unfold tryBlock.
    destruct (hooks_then (plugins b) BeforeRequest (resolveAndRun b req)
                {| context := initialContext b req; world := w |})
      as (st1 & ev1 & _ & ->).
    unfold resolveAndRun. rewrite Hroute.
    unfold fetchUser, bind, emit, modifyContext. simpl.
    destruct (Hfetch (world st1)) as (e & w1 & ->). by do 3 eexists.
  - intros r pre R post Hroute Hfetch Hrules Hpre HR.
    destruct (tryBlock_matched b req
                {| context := initialContext b req; world := w |} r
                Hroute Hfetch) as (st1 & ev1 & _ & ->).
    rewrite Hrules. clear Hrules.
    assert (forall index st, exists e st' evs,
              runRules (plugins b) (pre ++ R :: post) index st =
                (Throw e, st', evs)) as Hthrow.
    { induction Hpre as [|rule pre Hrule Hpre IH]; intros index st; simpl.
      - match goal with
        | |- context [ (executePluginHook ?ps ?h >> ?k) st ] =>
            destruct (hooks_then ps h k st) as (st2 & ev2 & _ & ->)
        end.
        unfold bind at 1, callRule at 1.
        destruct (HR st2) as (e & st3 & ->). by do 3 eexists.
      - match goal with
        | |- context [ (executePluginHook ?ps ?h >> ?k) st ] =>
            destruct (hooks_then ps h k st) as (st2 & ev2 & _ & ->)
        end.
        unfold bind at 1, callRule at 1.
        destruct (Hrule st2) as (st3 & ->).
        match goal with
        | |- context [ (executePluginHook ?ps ?h >> ?k) st3 ] =>
            destruct (hooks_then ps h k st3) as (st4 & ev4 & _ & ->)
        end.
        destruct (IH (S index) st4) as (e & st5 & ev5 & ->).
        by do 3 eexists. }
    destruct (Hthrow 0%nat st1) as (e & st2 & ev2 & ->). by do 3 eexists.
  - apply isAuthPath_spec.
  - intros e st1 ev1 base rest c Htry Hsilent Hin Hpath Hc.
    split; [|rewrite Hpath; by apply matchRoute_inside_segment].
    unfold build, tryCatch. rewrite Htry.
    destruct (catchBlock_normal b req e st1)
      as (response & st2 & ev2 & -> & _ & Hpolicy).
    rewrite (Hpolicy Hsilent).
    assert (isAuthPath (authPaths b) (req_pathname req) = true) as ->.
    { apply isAuthPath_spec. exists (base +:+ "/*"). split; [done|].
      left. by exists base, (String c rest). }
    by do 2 eexists.
Qed.

(** *** Plugin isolation *)



Section Without.
Context (ps1 : Plugins) (P : @Plugin T V W E) (ps2 : Plugins).

Let ps : Plugins := ps1 ++ P :: ps2.





End Without.






End PipelineFacts.

(** ** Registration *)

Section RegistrationFacts.
Import Builder.
Context {T V W E : Type}.

(** C7.  [route] with [isExact: false] does not derive the stored prefix as
    [prefix] does: [prefix] always stores one (the pattern, less one
    trailing [/]), [route] stores one only for a pattern that ends in [/].
    The two registrations of [/docs] therefore differ in the stored prefix
    and in the parameters extracted for [/docs/a/b], and the two
    registrations of [/docs/*] do not match the same paths.  Neither strips
    a trailing [/*].  [isExact] defaults to [true]. *)
Theorem route_and_prefix_store_different_prefixes
    (options : @MiddlewareBuilderOptions T V W E)
    (rs : list (@MiddlewareRule T V W E)) (pat : string) :
  let b := constructor options in
  let nonExact :=
    {| ro_rules := rs; ro_isExact := Some false; ro_metadata := None |} in
  let defaults :=
    {| ro_rules := rs; ro_isExact := None; ro_metadata := None |} in
  map prefix (routes (route b pat nonExact)) =
    [if endsWith pat "/" then Some (slice pat 0 (Some (-1))) else None] /\
  map prefix (routes (prefix_ b pat rs)) =
    [Some (if endsWith pat "/" then slice pat 0 (Some (-1)) else pat)] /\
  map isExact (routes (route b pat defaults)) = [true] /\
  map prefix (routes (route b "/docs" nonExact)) = [None] /\
  map prefix (routes (prefix_ b "/docs" rs)) = [Some "/docs"] /\
  extractParams "/docs/a/b" "/docs" false None = ∅ /\
  extractParams "/docs/a/b" "/docs" false (Some "/docs") =
    {[ "*" := "a/b" ]} /\
  map prefix (routes (route b "/docs/*" nonExact)) = [None] /\
  map prefix (routes (prefix_ b "/docs/*" rs)) = [Some "/docs/*"] /\
  matchRoute "/docs/a" "/docs/*" false None = true /\
  matchRoute "/docs/a" "/docs/*" false (Some "/docs/*") = false.
Proof.
  cbv zeta. split_and!; reflexivity.
Qed.

End RegistrationFacts.

(** ** The legacy matcher: the order of the matched patterns *)

Section SortFacts.
Import Legacy.

Local Abbreviation plain := (fun p : string => negb (isWildcard p)).

Lemma comparePaths_lt (a b : string) :
  (comparePaths a b <? 0) = negb (isWildcard a && negb (isWildcard b)).
Proof. unfold comparePaths. by destruct (_ && _). Qed.

Lemma insertionPoint_step (pivot : string) (sorted : list string)
    (left right turns : nat) :
  V8.insertionPoint comparePaths pivot sorted left right (S turns) =
    if (left <? right)%nat then
      let mid := (left + (right - left) / 2)%nat in
      match sorted !! mid with
      | Some element =>
          if comparePaths pivot element <? 0 then
            V8.insertionPoint comparePaths pivot sorted left mid turns
          else
            V8.insertionPoint comparePaths pivot sorted (mid + 1)%nat right
              turns
      | None => left
      end
    else left.
Proof. reflexivity. Qed.

(** A plain pattern goes to the front of whatever is sorted already. *)
Lemma insertionPoint_plain (pivot : string) (sorted : list string)
    (right turns : nat) :
  isWildcard pivot = false ->
  V8.insertionPoint comparePaths pivot sorted 0 right turns = 0%nat.
Proof.
  intros Hp. revert right. induction turns as [|turns IH]; intros right;
    [done|].
  rewrite insertionPoint_step.
  destruct (0 <? right)%nat; [|done]. cbv zeta.
  destruct (sorted !! _); [|done].
  rewrite comparePaths_lt, Hp. simpl. apply IH.
Qed.

(** A wildcard pattern goes between the plain patterns and the wildcard
    ones. *)
Lemma insertionPoint_wildcard (pivot : string) (ns ws : list string)
    (left right turns : nat) :
  isWildcard pivot = true ->
  Forall (fun p => isWildcard p = false) ns ->
  Forall (fun p => isWildcard p = true) ws ->
  (left <= length ns <= right)%nat ->
  (right <= length (ns ++ ws))%nat ->
  (right - left <= turns)%nat ->
  V8.insertionPoint comparePaths pivot (ns ++ ws) left right turns
    = length ns.
Proof.
  intros Hp Hns Hws. revert left right.
  induction turns as [|turns IH]; intros left right Hmid Hright Hturns;
    [simpl; lia|].
  rewrite insertionPoint_step.
  destruct (Nat.ltb_spec left right) as [Hlt|Hge]; [|lia]. cbv zeta.
  remember (left + (right - left) / 2)%nat as mid eqn:Hmid'.
  assert (left <= mid < right)%nat as Hm.
  { pose proof (Nat.Div0.div_lt_upper_bound (right - left) 2 (right - left)).
    pose proof (Nat.Div0.div_le_upper_bound (right - left) 2 (right - left)).
    lia. }
  clear Hmid'.
  destruct (Nat.lt_ge_cases mid (length ns)) as [Hin|Hout].
  - rewrite lookup_app_l by done.
    destruct (lookup_lt_is_Some_2 ns mid Hin) as [element Helement].
    rewrite Helement, comparePaths_lt, Hp.
    rewrite (proj1 (Forall_lookup _ _) Hns _ _ Helement). simpl.
    apply IH; lia.
  - rewrite lookup_app_r by done.
    assert (mid - length ns < length ws)%nat as Hin
      by (rewrite length_app in Hright; lia).
    destruct (lookup_lt_is_Some_2 ws _ Hin) as [element Helement].
    rewrite Helement, comparePaths_lt, Hp.
    rewrite (proj1 (Forall_lookup _ _) Hws _ _ Helement). simpl.
    apply IH; lia.
Qed.

Lemma filter_plain_all (l : list string) :
  Forall (fun p => isWildcard p = false) (List.filter plain l).
Proof.
  induction l as [|p l IH]; simpl; [done|].
  destruct (isWildcard p) eqn:Hp; simpl; [done | by constructor].
Qed.

Lemma filter_wildcard_all (l : list string) :
  Forall (fun p => isWildcard p = true) (List.filter isWildcard l).
Proof.
  induction l as [|p l IH]; simpl; [done|].
  destruct (isWildcard p) eqn:Hp; simpl; [by constructor | done].
Qed.

(** Binary insertion keeps the plain patterns before the wildcard ones and
    puts every new pattern at the front of its group. *)
Lemma binaryInsertionSort_groups (rest ns ws : list string) :
  Forall (fun p => isWildcard p = false) ns ->
  Forall (fun p => isWildcard p = true) ws ->
  V8.binaryInsertionSort comparePaths (ns ++ ws) rest =
    (rev (List.filter plain rest) ++ ns)
      ++ (rev (List.filter isWildcard rest) ++ ws).
Proof.
  revert ns ws. induction rest as [|pivot rest IH]; intros ns ws Hns Hws;
    simpl; [done|].
  destruct (isWildcard pivot) eqn:Hp; simpl.
  - rewrite (insertionPoint_wildcard pivot ns ws)
      by (rewrite ?length_app; (done || lia)).
    rewrite take_app_length, drop_app_length.
    rewrite (IH ns (pivot :: ws)) by (done || by constructor).
    by rewrite <- !app_assoc.
  - rewrite insertionPoint_plain by done.
    rewrite take_0, drop_0.
    pose proof (IH (pivot :: ns) ws ltac:(by constructor) Hws) as Hrest.
    simpl in Hrest |- *. rewrite Hrest.
    by rewrite <- !app_assoc.
Qed.

Local Abbreviation groups :=
  (fun l : list string =>
     rev (List.filter plain l) ++ rev (List.filter isWildcard l)).

Lemma runTail_step (isDescending : bool) (previous current : string)
    (rest : list string) :
  V8.runTail comparePaths isDescending previous (current :: rest) =
    if isDescending then
      if comparePaths current previous <? 0
      then S (V8.runTail comparePaths isDescending current rest) else 0%nat
    else
      if comparePaths current previous <? 0
      then 0%nat else S (V8.runTail comparePaths isDescending current rest).
Proof. reflexivity. Qed.

(** After a plain pattern a descending run goes on with plain patterns
    only. *)
Lemma descending_after_plain (previous : string) (rest : list string) :
  isWildcard previous = false ->
  Forall (fun p => isWildcard p = false)
    (take (V8.runTail comparePaths true previous rest) rest).
Proof.
  revert previous. induction rest as [|current rest IH];
    intros previous Hp; [by rewrite take_nil|].
  rewrite runTail_step, comparePaths_lt, Hp. simpl.
  destruct (isWildcard current) eqn:Hc; simpl; [done|].
  constructor; [done | by apply IH].
Qed.

Lemma filter_all_plain (l : list string) :
  Forall (fun p => isWildcard p = false) l ->
  List.filter plain l = l /\ List.filter isWildcard l = [].
Proof.
  induction 1 as [|p l Hp Hl [IH1 IH2]]; simpl; [done|].
  by rewrite Hp, IH1, IH2.
Qed.

(** A descending run, reversed, has its plain patterns first. *)
Lemma descending_run_groups (previous : string) (rest : list string) :
  let run :=
    previous :: take (V8.runTail comparePaths true previous rest) rest in
  rev run = groups run.
Proof.
  cbv zeta. revert previous. induction rest as [|current rest IH];
    intros previous.
  - rewrite take_nil. simpl. by destruct (isWildcard previous).
  - rewrite runTail_step, comparePaths_lt.
    destruct (isWildcard current && negb (isWildcard previous)) eqn:Hstop;
      simpl negb; cbv iota.
    + simpl. by destruct (isWildcard previous).
    + rewrite firstn_cons.
      pose proof (IH current) as IHc.
      remember (current :: take (V8.runTail comparePaths true current rest)
                             rest) as tail eqn:Htail.
      change (rev (previous :: tail)) with (rev tail ++ [previous]).
      rewrite IHc. simpl List.filter.
      destruct (isWildcard previous) eqn:Hp; simpl.
      * by rewrite <- app_assoc.
      * rewrite andb_true_r in Hstop.
        pose proof (descending_after_plain current rest Hstop) as Hplain.
        destruct (filter_all_plain tail) as [-> ->];
          [subst tail; by constructor | by rewrite !app_nil_r].
Qed.

Lemma ascending_run_stops (previous : string) (rest : list string) :
  isWildcard previous = true ->
  V8.runTail comparePaths false previous rest = 0%nat.
Proof.
  intros Hp. destruct rest as [|current rest]; [done|].
  rewrite runTail_step, comparePaths_lt, Hp.
  by rewrite andb_false_r.
Qed.

(** The first run comes out with its plain patterns first, each group in
    reverse order. *)
Lemma countAndMakeRun_groups (l : list string) :
  exists pre rest,
    l = pre ++ rest /\
    V8.countAndMakeRun comparePaths l = (groups pre, rest).
Proof.
  destruct l as [|x0 [|x1 rest]].
  - by exists [], [].
  - exists [x0], []. split; [done|]. simpl. by destruct (isWildcard x0).
  - unfold V8.countAndMakeRun.
    set (l := x0 :: x1 :: rest).
    rewrite comparePaths_lt. cbv zeta.
    destruct (isWildcard x1 && negb (isWildcard x0)) eqn:Hasc; simpl negb;
      cbv iota.
    + apply andb_true_iff in Hasc as [H1 H0].
      apply negb_true_iff in H0.
      rewrite (ascending_run_stops x1 rest H1).
      exists [x0; x1], rest. split; [done|].
      subst l. simpl. by rewrite H0, H1.
    + exists (take (2 + V8.runTail comparePaths true x1 rest) l),
        (drop (2 + V8.runTail comparePaths true x1 rest) l).
      split; [by rewrite take_drop|]. f_equal.
      subst l. change (2 + ?k)%nat with (S (S k)). rewrite !firstn_cons.
      pose proof (descending_run_groups x1 rest) as Hrun. cbv zeta in Hrun.
      remember (x1 :: take (V8.runTail comparePaths true x1 rest) rest)
        as tail eqn:Htail.
      change (rev (x0 :: tail)) with (rev tail ++ [x0]).
      rewrite Hrun. simpl List.filter.
      destruct (isWildcard x0) eqn:H0; simpl.
      * by rewrite <- app_assoc.
      * rewrite andb_true_r in Hasc.
        pose proof (descending_after_plain x1 rest Hasc) as Hplain.
        destruct (filter_all_plain tail) as [-> ->];
          [subst tail; by constructor | by rewrite !app_nil_r].
Qed.

(** What the legacy matcher's sort returns: the plain patterns, then the
    wildcard ones, each group in reverse registration order. *)
Lemma sortPaths_groups (paths : list string) : sortPaths paths = groups paths.
Proof.
  unfold sortPaths, V8.sort.
  destruct (countAndMakeRun_groups paths) as (pre & rest & -> & ->).
  rewrite binaryInsertionSort_groups
    by (apply Forall_rev;
        (apply filter_plain_all || apply filter_wildcard_all)).
  by rewrite !List.filter_app, !rev_app_distr.
Qed.

(** C8, as amended.  For fewer than 64 matched patterns (the range in
    which the engine sorts by binary insertion alone) the legacy sort puts
    every wildcard pattern after every pattern that is not one, whatever the
    registration order; [/blog/*] comes after [/blog/latest].  The
    comparator never answers [0], and answers [-1] both ways for two
    patterns of one kind, so no tie is ever broken by registration order:
    each group comes out in reverse registration order. *)
Theorem wildcards_sort_last (paths : list string) :
  (length paths < 64)%nat ->
  sortPaths paths =
    rev (List.filter (fun p => negb (isWildcard p)) paths)
      ++ rev (List.filter isWildcard paths) /\
  (forall (i j : nat) (a c : string),
     sortPaths paths !! i = Some a -> sortPaths paths !! j = Some c ->
     isWildcard a = true -> isWildcard c = false -> (j < i)%nat) /\
  (forall a c : string, comparePaths a c <> 0) /\
  (forall a c : string,
     isWildcard a = isWildcard c ->
     comparePaths a c = -1 /\ comparePaths c a = -1) /\
  sortPaths ["/blog/*"; "/blog/latest"] = ["/blog/latest"; "/blog/*"] /\
  sortPaths ["/blog/latest"; "/blog/*"] = ["/blog/latest"; "/blog/*"].
Proof.
  intros _. split_and!; try reflexivity.
  - apply sortPaths_groups.
  - intros i j a c Hi Hj Ha Hc. rewrite sortPaths_groups in Hi, Hj.
    pose proof (Forall_rev (filter_plain_all paths)) as Hns.
    pose proof (Forall_rev (filter_wildcard_all paths)) as Hws.
    set (ns := rev (List.filter plain paths)) in *.
    set (ws := rev (List.filter isWildcard paths)) in *.
    destruct (Nat.lt_ge_cases i (length ns)) as [Hlt|Hge].
    + rewrite lookup_app_l in Hi by done.
      pose proof (proj1 (Forall_lookup _ _) Hns _ _ Hi) as Hplain.
      simpl in Hplain. congruence.
    + destruct (Nat.lt_ge_cases j (length ns)) as [Hlt'|Hge']; [lia|].
      rewrite lookup_app_r in Hj by done.
      pose proof (proj1 (Forall_lookup _ _) Hws _ _ Hj) as Hwild.
      simpl in Hwild. congruence.
  - intros a c. unfold comparePaths. by destruct (_ && _).
  - intros a c Heq. unfold comparePaths. rewrite Heq.
    by destruct (isWildcard c).
Qed.

Lemma wildcards_sort_last_witness :
  sortPaths ["/blog/*"; "/about"; "/blog/latest"; "/docs/*"] =
    ["/blog/latest"; "/about"; "/docs/*"; "/blog/*"].
Proof.
  destruct (wildcards_sort_last
              ["/blog/*"; "/about"; "/blog/latest"; "/docs/*"]) as [-> _].
  - simpl. lia.
  - reflexivity.
Defined.

(** C8, as stated, fails: two patterns of one kind come out in the reverse
    of their registration order. *)
Lemma registration_order_not_kept :
  ~ Stated.registrationOrderKept /\
  sortPaths ["/a"; "/b"] = ["/b"; "/a"] /\
  comparePaths "/a" "/b" = -1 /\ comparePaths "/b" "/a" = -1.
Proof.
  split_and!; try reflexivity.
  intros H. specialize (H ["/a"; "/b"] ltac:(simpl; lia)).
  by vm_compute in H.
Qed.

End SortFacts.

(** ** The legacy matcher: [next] and [redirect] *)

Section LegacyRuleFacts.
Import Legacy Spec.
Context {T W E : Type}.

Local Abbreviation LegacyRules := (list (@RuleFunction T W E)).

Lemma perform_next_only (n : nat) (st : LoopState) :
  redirectPath (fold_left perform (replicate n CallNext) st)
    = redirectPath st.
Proof.
  revert st. induction n as [|n IH]; intros st; simpl; [done|].
  by rewrite IH.
Qed.

Lemma outcome_spec (req : Request) (st : LoopState) :
  @outcome E req st =
    match redirectPath st with
    | Some target =>
        if truthy target && negb (String.eqb target (req_pathname req))
        then
          if req_resolves req target then inl (Redirect target (req_url req))
          else inr (InvalidURL target)
        else inl PassThrough
    | None => inl PassThrough
    end.
Proof.
  unfold outcome, hasRedirect.
  destruct (redirectPath st) as [target|]; [|by destruct (nextCalled st)].
  destruct (nextCalled st), (truthy target); done.
Qed.

(** Rules that only call [next] leave no target, and the loop goes on. *)
Lemma ruleLoop_next_only (pre rest : LegacyRules) (args : RuleArgs)
    (st : LoopState) (w : W) :
  Forall onlyCallsNext pre ->
  redirectPath st = None ->
  exists st',
    redirectPath st' = None /\
    ruleLoop (pre ++ rest) args st w = ruleLoop rest args st' w.
Proof.
  intros Hpre. revert st.
  induction Hpre as [|rule pre [n Hrule] Hpre IH]; intros st Hst; simpl.
  - by exists st.
  - rewrite Hrule.
    assert (redirectPath (fold_left perform (replicate n CallNext) st) = None)
      as Hnone by (by rewrite perform_next_only).
    unfold hasRedirect. rewrite Hnone.
    destruct (IH _ Hnone) as (st' & Hst' & ->). exists st'.
    split; [done|]. by destruct (nextCalled _).
Qed.

(** A rule that records a non-empty target ends the loop, whatever rules
    follow it. *)
Lemma ruleLoop_redirect (R : @RuleFunction T W E) (post : LegacyRules)
    (target : string) (args : RuleArgs) (st : LoopState) (w : W) :
  redirectsTo target R -> target <> "" ->
  ruleLoop (R :: post) args st w =
    (inl {| nextCalled := nextCalled st; redirectPath := Some target |}, w).
Proof.
  intros HR Htarget. simpl. rewrite HR. simpl.
  unfold hasRedirect. simpl.
  assert (truthy target = true) as ->
    by (unfold truthy; by destruct (String.eqb_spec target "")).
  done.
Qed.

(** C9, as amended.  The outcome for one matched path depends on the
    recorded target alone, not on whether [next] was called: a target is
    honoured when it is non-empty, differs from the request pathname and is
    a reference that [new URL(target, req.url)] accepts; [apply] throws
    when the target is one that [new URL] refuses, and the outcome is the
    pass-through response when the target is the request pathname.  The
    loop stops at the first rule that records a non-empty target, so a
    redirect made after any number of rules that called [next] is honoured,
    and the rules after it are not run, whatever they are and whether or
    not the target is the request pathname: the outcome and the state of
    the closures are those the rules up to it leave.  When the rules only
    call [next] the outcome is the pass-through response. *)
Theorem redirect_honoured_after_next (req : Request) (st : LoopState)
    (pre post : LegacyRules) (R : @RuleFunction T W E) (target : string)
    (path pathname : string) (data : T) (w : W) :
  @outcome E req st =
    match redirectPath st with
    | Some t =>
        if truthy t && negb (String.eqb t (req_pathname req))
        then
          if req_resolves req t then inl (Redirect t (req_url req))
          else inr (InvalidURL t)
        else inl PassThrough
    | None => inl PassThrough
    end /\
  (Forall onlyCallsNext pre -> redirectsTo target R -> target <> "" ->
   applyPath (pre ++ R :: post) req path pathname data w =
     (if String.eqb target (req_pathname req) then inl PassThrough
      else if req_resolves req target then
        inl (Redirect target (req_url req))
      else inr (InvalidURL target),
      w)) /\
  (Forall onlyCallsNext pre ->
   applyPath pre req path pathname data w = (inl PassThrough, w)).
Proof.
  split_and!.
  - apply outcome_spec.
  - intros Hpre HR Hempty. unfold applyPath.
    destruct (ruleLoop_next_only pre (R :: post)
                {| arg_data := data;
                   arg_params := extractParams path pathname;
                   arg_path := req_pathname req |}
                {| nextCalled := false; redirectPath := None |} w Hpre eq_refl)
      as (st' & Hst' & ->).
    rewrite (ruleLoop_redirect R post target _ st' w HR Hempty).
    rewrite outcome_spec. simpl.
    assert (truthy target = true) as ->
      by (unfold truthy; by destruct (String.eqb_spec target "")).
    by destruct (String.eqb target (req_pathname req)).
  - intros Hpre. unfold applyPath.
    destruct (ruleLoop_next_only pre []
                {| arg_data := data;
                   arg_params := extractParams path pathname;
                   arg_path := req_pathname req |}
                {| nextCalled := false; redirectPath := None |} w Hpre eq_refl)
      as (st' & Hst' & Hloop).
    rewrite app_nil_r in Hloop. rewrite Hloop. simpl.
    by rewrite outcome_spec, Hst'.
Qed.

End LegacyRuleFacts.

(** C9, as stated, fails: a redirect made by the rule after one that called
    [next] is honoured. *)
Lemma redirect_after_next_is_honoured :
  ~ Stated.redirectAfterNextIgnored /\
  @Legacy.applyPath unit unit unit
    [Spec.does [Legacy.CallNext];
     Spec.does [Legacy.CallRedirect "/login" None]]
    {| Legacy.req_url := "https://example.com/dashboard";
       Legacy.req_pathname := "/dashboard";
       Legacy.req_resolves := Spec.pathAbsolute |}
    "/dashboard" "/dashboard" tt tt
  = (inl (Redirect "/login" "https://example.com/dashboard"), tt).
Proof.
  split; [|reflexivity].
  intros H.
  specialize (H "/login"
                {| Legacy.req_url := "https://example.com/dashboard";
                   Legacy.req_pathname := "/dashboard";
                   Legacy.req_resolves := Spec.pathAbsolute |}
                "/dashboard" "/dashboard").
  by vm_compute in H.
Qed.

(** ** The properties on sample requests *)

Section Samples.
Import Builder Spec Examples.

Lemma first_decision_wins_witness :
  exists st evs,
    build dashboard (request "/dashboard") 0%nat =
      (Normal (Json "denied" 403), st, evs) /\
    ruleCalls evs =
      [(0%nat, Returned None);
       (1%nat, Returned (Some (Json "denied" 403)))].
Proof.
  destruct (first_decision_wins dashboard (request "/dashboard") 0%nat
              dashboardRoute) as (_ & Hfirst & _).
  - reflexivity.
  - intros w0. by exists (Some "alice"), w0.
  - apply (Hfirst [passes] denies [counts]).
    + reflexivity.
    + repeat constructor. intros st. by exists st.
    + intros st. by exists st.
Defined.

Lemma default_error_policy_witness :
  (exists st evs,
     build (api ["/api/*"]) (request "/api/x") 0%nat =
       (Normal PassThrough, st, evs)) /\
  (exists st evs,
     build (api []) (request "/api/x") 0%nat =
       (Normal (Redirect "/sign-in" "https://example.com/api/x"), st, evs)) /\
  (exists st evs,
     build Scenarios.apix (request "/apix") 0%nat =
       (Normal PassThrough, st, evs)) /\
  matchRoute "/apix" "/api/*" false None = false.
Proof.
  split; [|split].
  - destruct (default_error_policy (api ["/api/*"]) (request "/api/x") 0%nat)
      as (Hpolicy & _).
    eapply Hpolicy; [reflexivity | constructor].
  - destruct (default_error_policy (api []) (request "/api/x") 0%nat)
      as (Hpolicy & _).
    eapply Hpolicy; [reflexivity | constructor].
  - destruct (default_error_policy Scenarios.apix (request "/apix") 0%nat)
      as (_ & _ & _ & _ & _ & _ & _ & _ & Hinside).
    eapply (Hinside "boom" _ _ "/api" "" "x"%char);
      [reflexivity | constructor | by left | reflexivity | done].
Defined.


Lemma exact_route_needs_literal_path_witness :
  pattern usersRoute = "/users/[id]".
Proof.
  destruct (exact_route_needs_literal_path sampleOptions [passes] users
              "/users/[id]" "/users/[id]" None usersRoute)
    as (_ & Hliteral & _).
  apply Hliteral; reflexivity.
Defined.

Lemma redirect_honoured_after_next_witness :
  @Legacy.applyPath unit unit unit
    [does [Legacy.CallNext]; does [Legacy.CallRedirect "/login" None];
     does [Legacy.CallRedirect "/other" None]]
    {| Legacy.req_url := "https://example.com/dashboard";
       Legacy.req_pathname := "/dashboard";
       Legacy.req_resolves := Spec.pathAbsolute |}
    "/dashboard" "/dashboard" tt tt
  = (inl (Redirect "/login" "https://example.com/dashboard"), tt).
Proof.
  destruct (@redirect_honoured_after_next unit unit unit
              {| Legacy.req_url := "https://example.com/dashboard";
                 Legacy.req_pathname := "/dashboard";
                 Legacy.req_resolves := Spec.pathAbsolute |}
              {| Legacy.nextCalled := false; Legacy.redirectPath := None |}
              [does [Legacy.CallNext]]
              [does [Legacy.CallRedirect "/other" None]]
              (does [Legacy.CallRedirect "/login" None])
              "/login" "/dashboard" "/dashboard" tt tt)
    as (_ & Hredirect & _).
  apply Hredirect.
  - repeat constructor. by exists 1%nat.
  - by intros args w.
  - done.
Defined.

End Samples.

(** * Further properties of the code *)

(** ** Splitting and joining paths *)

Section SplitJoin.

Lemma concat_cons (sep first : string) (rest : list string) :
  rest <> [] ->
  String.concat sep (first :: rest)
    = first +:+ sep +:+ String.concat sep rest.
Proof. by destruct rest. Qed.

(** [s.split('/').join('/')] is [s]. *)
Lemma join_split (s : string) : String.concat "/" (split "/" s) = s.
Proof.
  induction s as [|c s IH]; [done|]. rewrite split_cons.
  pose proof (split_nonempty s) as Hne.
  destruct (Ascii.eqb_spec c "/") as [->|Hc].
  - by rewrite concat_cons, IH.
  - destruct (split "/" s) as [|piece pieces]; [done|].
    destruct pieces as [|piece' pieces].
    + simpl in *. by rewrite IH.
    + rewrite concat_cons by done. rewrite concat_cons in IH by done.
      by rewrite string_app_cons, IH.
Qed.

(** Splitting distributes over a slash. *)
Lemma split_app_slash (a b : string) :
  split "/" (a +:+ "/" +:+ b) = split "/" a ++ split "/" b.
Proof.
  induction a as [|c a IH].
  - by rewrite string_app_nil, string_app_cons, string_app_nil, split_cons.
  - rewrite string_app_cons, !split_cons, IH.
    destruct (Ascii.eqb c "/"); [done|].
    pose proof (split_nonempty a).
    by destruct (split "/" a).
Qed.

End SplitJoin.

(** ** Prefix matching *)

Section PrefixMatch.

(** X1.  A route that is not exact matches its prefix and the paths that
    continue it with a slash, and nothing else: the prefix is the stored
    one, or the pattern less one trailing [/*] when none (or an empty one)
    is stored.  A path that continues the prefix inside a segment
    ([/administrator] for [/admin]) does not match. *)
Theorem prefix_match_respects_segments (path pat : string)
    (stored : option string) (c : ascii) (rest : string) :
  let routePrefix :=
    match stored with
    | Some p => if truthy p then p else stripGlob pat
    | None => stripGlob pat
    end in
  (matchRoute path pat false stored = true <->
   path = routePrefix \/ exists more, path = routePrefix +:+ "/" +:+ more) /\
  (c <> "/"%char ->
   matchRoute (routePrefix +:+ String c rest) pat false stored = false).
Proof.
  cbv zeta.
  set (routePrefix := match stored with
                      | Some p => if truthy p then p else stripGlob pat
                      | None => stripGlob pat
                      end).
  assert (forall q, matchRoute q pat false stored = true <->
            q = routePrefix \/ exists more, q = routePrefix +:+ "/" +:+ more)
    as Hspec.
  { intros q. unfold matchRoute. fold routePrefix.
    rewrite orb_true_iff, String.eqb_eq, startsWith_spec.
    split; (intros [H|[more H]]; [by left | right; exists more]).
    - by rewrite H, string_app_assoc.
    - by rewrite H, string_app_assoc. }
  split; [apply Hspec|].
  intros Hc. apply not_true_is_false. intros Hm.
  apply Hspec in Hm as [Hm|[more Hm]].
  - by apply string_app_self in Hm.
  - apply string_app_inv_head in Hm. rewrite string_app_cons in Hm.
    by injection Hm as -> _.
Qed.

Lemma prefix_match_respects_segments_witness :
  matchRoute "/administrator" "/admin" false (Some "/admin") = false.
Proof.
  apply (prefix_match_respects_segments "" "/admin" (Some "/admin") "i"
           "strator").
  done.
Defined.

End PrefixMatch.

(** ** The legacy matcher: matching and parameters *)

Section LegacyMatch.
Import Legacy.

Lemma split_no_slash (s : string) :
  includes s "/" = false -> split "/" s = [s].
Proof.
  induction s as [|c s IH]; [done|]. simpl includes. rewrite split_cons.
  intros [Hc Hs]%orb_false_iff. rewrite Hc, (IH Hs). done.
Qed.

Lemma legacy_isBracket (part : string) :
  Legacy.isBracket part = Priority.isBracket part.
Proof. reflexivity. Qed.

Lemma everyPart_app (l1 l2 : list string) (index : nat)
    (pathnameParts : list string) :
  everyPart (l1 ++ l2) index pathnameParts =
    everyPart l1 index pathnameParts
    && everyPart l2 (index + length l1) pathnameParts.
Proof.
  revert index. induction l1 as [|part l1 IH]; intros index; simpl.
  - by rewrite Nat.add_0_r.
  - rewrite IH, andb_assoc.
    by replace (S index + length l1)%nat with (index + S (length l1))%nat
      by lia.
Qed.

(** The parts of a pattern match themselves wherever they stand. *)
Lemma everyPart_self (parts before after : list string) :
  everyPart parts (length before) (before ++ parts ++ after) = true.
Proof.
  revert before. induction parts as [|part parts IH]; intros before;
    [done|].
  simpl. rewrite lookup_app_r, Nat.sub_diag by done. simpl.
  rewrite String.eqb_refl.
  replace (before ++ part :: parts ++ after)
    with ((before ++ [part]) ++ parts ++ after) by by rewrite <- app_assoc.
  replace (S (length before)) with (length (before ++ [part]))
    by (rewrite length_app; simpl; lia).
  rewrite IH. by repeat case_match.
Qed.

(** X2.  The legacy [match] only looks at the segments the pattern has: a
    pattern matches its own path and every path beneath it; a pattern that
    ends in [/*] or in a bracket segment also matches the path without that
    last segment; a pattern that ends in any other segment does not. *)
Theorem legacy_match_ignores_longer_paths (pat rest last : string) :
  match_ pat pat = true /\
  match_ pat (pat +:+ "/" +:+ rest) = true /\
  match_ (pat +:+ "/*") pat = true /\
  (includes last "/" = false ->
   match_ (pat +:+ "/" +:+ last) pat =
     String.eqb last "*" || isBracket last).
Proof.
  split_and!.
  - unfold match_.
    pose proof (everyPart_self (split "/" pat) [] []) as H.
    by rewrite app_nil_r in H.
  - unfold match_. rewrite split_app_slash.
    apply (everyPart_self (split "/" pat) [] (split "/" rest)).
  - unfold match_.
    change (pat +:+ "/*") with (pat +:+ "/" +:+ "*").
    rewrite split_app_slash, everyPart_app.
    pose proof (everyPart_self (split "/" pat) [] []) as H.
    rewrite app_nil_r in H. simpl in H. rewrite H. done.
  - intros Hlast. unfold match_.
    rewrite split_app_slash, everyPart_app, (split_no_slash last Hlast).
    pose proof (everyPart_self (split "/" pat) [] []) as H.
    rewrite app_nil_r in H. simpl in H. rewrite H. simpl.
    rewrite lookup_ge_None_2 by lia.
    destruct (String.eqb last "*"); [done|].
    by destruct (isBracket last).
Qed.

Lemma legacy_match_ignores_longer_paths_witness :
  match_ "/blog/latest" "/blog" = false /\
  match_ "/users/[id]" "/users" = true.
Proof.
  split.
  - destruct (legacy_match_ignores_longer_paths "/blog" "" "latest")
      as (_ & _ & _ & H).
    exact (H eq_refl).
  - destruct (legacy_match_ignores_longer_paths "/users" "" "[id]")
      as (_ & _ & _ & H).
    exact (H eq_refl).
Defined.

End LegacyMatch.

(** ** Route resolution as one pass *)

Section OnePass.
Import Builder Spec Spec2.
Context {T V W E : Type}.

Local Abbreviation Route := (@RouteDefinition T V W E).
Local Abbreviation Table := (@MiddlewareBuilder T V W E).

Lemma find_insertByPriority (path : string) (r : Route)
    (sorted : list Route) :
  StronglySorted byPriority sorted ->
  List.find (routeMatches path) (insertByPriority r sorted) =
    better path r (List.find (routeMatches path) sorted).
Proof.
  induction 1 as [|r' rest Hsorted IH Hall]; simpl.
  - unfold better. by destruct (routeMatches path r).
  - destruct (Z.leb_spec (priority r - priority r') 0) as [Hle|Hgt]; simpl.
    + unfold better. destruct (routeMatches path r); [|done].
      destruct (routeMatches path r') eqn:Hr'.
      * by rewrite (proj2 (Z.leb_le _ _)) by lia.
      * destruct (List.find (routeMatches path) rest) as [a|] eqn:Hfind;
          [|done].
        apply find_some in Hfind as [Hin _].
        apply list_elem_of_In in Hin.
        pose proof (proj1 (Forall_forall _ _) Hall a Hin) as Ha.
        unfold byPriority in Ha.
        by rewrite (proj2 (Z.leb_le _ _)) by lia.
    + destruct (routeMatches path r') eqn:Hr'.
      * unfold better. destruct (routeMatches path r); [|done].
        by rewrite (proj2 (Z.leb_gt _ _)) by lia.
      * apply IH.
Qed.

Lemma find_sortByPriority (path : string) (rs : list Route) :
  List.find (routeMatches path) (sortByPriority rs) = firstBest path rs.
Proof.
  induction rs as [|r rs IH]; [done|]. simpl.
  rewrite find_insertByPriority by apply sortByPriority_sorted.
  by rewrite IH.
Qed.

Lemma firstBest_Some (path : string) (rs : list Route) (r : Route) :
  firstBest path rs = Some r -> r ∈ rs /\ routeMatches path r = true.
Proof.
  rewrite <- find_sortByPriority. intros [Hin Hm]%find_some.
  split; [|done]. rewrite <- (sortByPriority_perm rs).
  by apply list_elem_of_In.
Qed.

Lemma firstBest_pick (path : string) (pre post : list Route) (r : Route) :
  routeMatches path r = true ->
  Forall (fun x => routeMatches path x = true -> priority r < priority x)
    pre ->
  Forall (fun x => routeMatches path x = true -> priority r <= priority x)
    post ->
  firstBest path (pre ++ r :: post) = Some r.
Proof.
  intros Hr Hpre Hpost.
  induction Hpre as [|x pre Hx Hpre IH]; simpl.
  - unfold better. rewrite Hr.
    destruct (firstBest path post) as [a|] eqn:Hbest; [|done].
    apply firstBest_Some in Hbest as [Hin Ha].
    pose proof (proj1 (Forall_forall _ _) Hpost a Hin Ha).
    by rewrite (proj2 (Z.leb_le _ _)) by lia.
  - rewrite IH. unfold better.
    destruct (routeMatches path x); [|done].
    by rewrite (proj2 (Z.leb_gt _ _)) by (specialize (Hx eq_refl); lia).
Qed.

(** X3.  Resolution needs no sort: it is the pass over the routes that
    keeps the matching route of lowest priority and, of two of equal
    priority, the one registered first.  So a route is resolved when it
    matches, every matching route registered before it has a strictly
    higher priority and every one registered after it a priority at least
    as high; and no route is resolved exactly when no route matches. *)
Theorem resolution_needs_no_sort (b : Table) (path : string)
    (pre post : list Route) (r : Route) :
  findMatchingRoute b path = firstBest path (routes b) /\
  (routes b = pre ++ r :: post ->
   routeMatches path r = true ->
   Forall (fun x => routeMatches path x = true -> priority r < priority x)
     pre ->
   Forall (fun x => routeMatches path x = true -> priority r <= priority x)
     post ->
   findMatchingRoute b path = Some r) /\
  (findMatchingRoute b path = None <->
   Forall (fun x => routeMatches path x = false) (routes b)).
Proof.
  unfold findMatchingRoute. rewrite find_sortByPriority. split_and!.
  - done.
  - intros -> Hr Hpre Hpost. by apply firstBest_pick.
  - rewrite <- find_sortByPriority. split.
    + intros Hnone. apply Forall_forall. intros x Hx.
      apply (find_none _ _ Hnone).
      apply list_elem_of_In. by rewrite sortByPriority_perm.
    + intros Hall.
      destruct (List.find _ _) as [a|] eqn:Hfind; [|done].
      apply find_some in Hfind as [Hin Ha].
      apply list_elem_of_In in Hin. rewrite sortByPriority_perm in Hin.
      pose proof (proj1 (Forall_forall _ _) Hall a Hin). congruence.
Qed.

End OnePass.

(** ** The handler: what it always and never does *)

Section HandlerFacts.
Import Builder Spec Spec2.
Context {T V W E : Type}.

Local Abbreviation Plugins := (list (@Plugin T V W E)).
Local Abbreviation Table := (@MiddlewareBuilder T V W E).
Local Abbreviation State := (@Store T V W).

Lemma hook_events_no_fetch (k : HookName) (evs : list Event) :
  Forall (fun ev => exists p, ev = CallHook p k \/ ev = ConsoleError p k)
    evs ->
  List.filter isFetch evs = [].
Proof.
  induction 1 as [|ev evs [p [->| ->]] _ IH]; simpl; done.
Qed.

(** X4.  The handler never throws: whatever the plugins, the fetcher and
    the rules do, it ends with a response. *)
Theorem handler_always_responds (b : Table) (req : Request) (w : W) :
  exists response st evs, build b req w = (Normal response, st, evs).
Proof.
  unfold build, tryCatch.
  destruct (tryBlock b req _) as [[[response|e] st1] ev1].
  - by exists response, st1, ev1.
  - destruct (catchBlock_normal b req e st1)
      as (response & st2 & ev2 & -> & _).
    by exists response, st2, (ev1 ++ ev2).
Qed.

(** X5.  On a path that no route matches the handler answers with the
    pass-through response without fetching the user data and without
    calling any rule; the [beforeRequest] and the [afterRequest] hooks of
    every plugin that has them are still called, in registration order. *)
Theorem unmatched_path_passes_through (b : Table) (req : Request) (w : W) :
  findMatchingRoute b (req_pathname req) = None ->
  exists st evs,
    build b req w = (Normal PassThrough, st, evs) /\
    List.filter isFetch evs = [] /\
    ruleCalls evs = [] /\
    hookCalls beforeRequest_ evs =
      map name
        (List.filter (fun p => bool_decide (beforeRequest p <> None))
           (plugins b)) /\
    hookCalls afterRequest_ evs =
      map name
        (List.filter (fun p => bool_decide (afterRequest p <> None))
           (plugins b)).
Proof.
  intros Hnone. unfold build, tryCatch, tryBlock.
  pose proof (executePluginHook_events (plugins b) BeforeRequest
                {| context := initialContext b req; world := w |}) as Hev1.
  destruct (executePluginHook_normal (plugins b) BeforeRequest
              {| context := initialContext b req; world := w |})
    as (st1 & ev1 & Hrun1 & Hr1 & Hh1).
  rewrite Hrun1 in Hev1. simpl in Hev1, Hh1.
  unfold bind at 1. rewrite Hrun1.
  unfold resolveAndRun. rewrite Hnone.
  unfold bind at 1, emit.
  pose proof (executePluginHook_events (plugins b)
                (AfterRequest (Some Responses.next)) st1) as Hev2.
  destruct (executePluginHook_normal (plugins b)
              (AfterRequest (Some Responses.next)) st1)
    as (st2 & ev2 & Hrun2 & Hr2 & Hh2).
  rewrite Hrun2 in Hev2. simpl in Hev2, Hh2.
  unfold bind, ret. rewrite Hrun2.
  eexists _, _. split; [reflexivity|].
  split_and!.
  - rewrite !List.filter_app.
    rewrite (hook_events_no_fetch _ _ Hev1), (hook_events_no_fetch _ _ Hev2).
    done.
  - rewrite !ruleCalls_app, Hr1, Hr2. done.
  - rewrite !hookCalls_app, Hh1.
    rewrite (hook_events_other afterRequest_ beforeRequest_ ev2)
      by done.
    simpl. by rewrite app_nil_r.
  - rewrite !hookCalls_app, Hh2.
    rewrite (hook_events_other beforeRequest_ afterRequest_ ev1) by done.
    simpl. rewrite app_nil_r. f_equal.
    apply List.filter_ext. intros p. by destruct (afterRequest p).
Qed.

End HandlerFacts.

(** ** Error responses from plugins *)

Section OnErrorFacts.
Import Builder Spec Spec2.
Context {T V W E : Type}.

Local Abbreviation Plugins := (list (@Plugin T V W E)).
Local Abbreviation Table := (@MiddlewareBuilder T V W E).
Local Abbreviation State := (@Store T V W).

Lemma handlePluginErrors_first (pre : Plugins) (P : @Plugin T V W E)
    (post : Plugins) (response : Response) (e : E) (st : State) :
  Forall onErrorSilent pre ->
  onErrorSupplies response P ->
  exists st' evs,
    handlePluginErrors (pre ++ P :: post) e st
      = (Normal (Some response), st', evs) /\
    hookCalls onError_ evs =
      map name (List.filter (fun p => bool_decide (onError p <> None)) pre)
        ++ [name P].
Proof.
  intros Hpre (f & Hf & Hsupplies). revert st.
  induction Hpre as [|p pre Hp Hpre IH]; intros st; simpl.
  - rewrite Hf. unfold bind, tryCatch, emit, call, ret.
    destruct (Hsupplies e st) as (st' & ->). by eexists _, _.
  - destruct (onError p) as [g|] eqn:Hg; [|apply IH].
    unfold bind at 1, tryCatch, emit, call, bind, ret.
    destruct (g e st) as [[[r|]|e'] st1] eqn:Hrun.
    + by destruct (Hp g Hg e st r st1).
    + destruct (IH st1) as (st' & evs & -> & Hcalls).
      eexists _, _. split; [reflexivity|].
      rewrite hookCalls_app, Hcalls. done.
    + destruct (IH st1) as (st' & evs & -> & Hcalls).
      eexists _, _. split; [reflexivity|].
      rewrite hookCalls_app, Hcalls. done.
Qed.

(** X6.  When the handler fails, the [onError] hooks are tried in
    registration order; one that throws or returns nothing is passed over,
    and the first response supplied is the handler's answer: the [onError]
    hooks of the plugins registered after it are not called, and the
    default policy is not applied. *)
Theorem first_onError_response_wins (b : Table) (req : Request) (w : W)
    (pre : Plugins) (P : @Plugin T V W E) (post : Plugins)
    (response : Response) :
  plugins b = pre ++ P :: post ->
  Forall onErrorSilent pre ->
  onErrorSupplies response P ->
  (forall e st, exists st' evs,
     handlePluginErrors (plugins b) e st
       = (Normal (Some response), st', evs) /\
     hookCalls onError_ evs =
       map name (List.filter (fun p => bool_decide (onError p <> None)) pre)
         ++ [name P]) /\
  (forall e st1 ev1,
     tryBlock b req {| context := initialContext b req; world := w |}
       = (Throw e, st1, ev1) ->
     exists st2 evs, build b req w = (Normal response, st2, evs)).
Proof.
  intros Hps Hpre HP. split.
  - intros e st. rewrite Hps. by apply handlePluginErrors_first.
  - intros e st1 ev1 Htry. unfold build, tryCatch. rewrite Htry.
    unfold catchBlock, bind. rewrite Hps.
    destruct (handlePluginErrors_first pre P post response e st1 Hpre HP)
      as (st2 & ev2 & -> & _).
    by eexists _, _.
Qed.

End OnErrorFacts.

(** ** The built-in rules *)

Section RuleFacts.
Import Builder Spec Spec2 Rules.
Context {V W E : Type}.

Local Abbreviation Plugins := (list (@Plugin UserData V W E)).
Local Abbreviation Table := (@MiddlewareBuilder UserData V W E).
Local Abbreviation State := (@Store UserData V W).

Lemma arrayIncludes_spec (l : list string) (x : string) :
  arrayIncludes l x = true <-> x ∈ l.
Proof.
  unfold arrayIncludes. rewrite existsb_exists. split.
  - intros (y & Hin & ->%String.eqb_eq). by apply list_elem_of_In.
  - intros Hin. exists x. split; [by apply list_elem_of_In|].
    apply String.eqb_refl.
Qed.

(** X7.  [hasRole(r)] lets the request go on exactly when there is user
    data whose [role] is [r] or whose [roles] contain [r], and
    [hasPermission(p)] exactly when there is user data whose [permissions]
    contain [p]; otherwise the answer is a 403 that names what is required,
    also for an anonymous request (no redirect to sign-in).  Neither
    changes the context. *)
Theorem role_and_permission_rules (r p : string) (st : State) :
  (@hasRole V W E r st = (Normal None, st) <->
   exists d, ctx_data (context st) = Some d /\
     (role d = Some r \/ exists rs, roles d = Some rs /\ r ∈ rs)) /\
  (@hasRole V W E r st = (Normal None, st) \/
   @hasRole V W E r st
     = (Normal (Some (Json ("error: Required role: " +:+ r) 403)), st)) /\
  (@hasPermission V W E p st = (Normal None, st) <->
   exists d, ctx_data (context st) = Some d /\
     exists ps, permissions d = Some ps /\ p ∈ ps) /\
  (@hasPermission V W E p st = (Normal None, st) \/
   @hasPermission V W E p st
     = (Normal (Some (Json ("error: Required permission: " +:+ p) 403)),
        st)) /\
  (ctx_data (context st) = None ->
   @hasRole V W E r st
     = (Normal (Some (Json ("error: Required role: " +:+ r) 403)), st) /\
   @hasPermission V W E p st
     = (Normal (Some (Json ("error: Required permission: " +:+ p) 403)),
        st)).
Proof.
  assert (roleGranted (ctx_data (context st)) r = true <->
          exists d, ctx_data (context st) = Some d /\
            (role d = Some r \/ exists rs, roles d = Some rs /\ r ∈ rs))
    as Hrole.
  { unfold roleGranted. destruct (ctx_data (context st)) as [d|].
    - rewrite orb_true_iff. split.
      + intros [H|H]; exists d; (split; [done|]).
        * left. destruct (role d) as [own|]; [|done].
          by apply String.eqb_eq in H as ->.
        * right. destruct (roles d) as [rs|]; [|done].
          exists rs. split; [done|]. by apply arrayIncludes_spec.
      + intros (d' & [= <-] & [H|(rs & H & Hin)]).
        * left. rewrite H. apply String.eqb_refl.
        * right. rewrite H. by apply arrayIncludes_spec.
    - split; [done|]. by intros (d & ? & _). }
  assert (permissionGranted (ctx_data (context st)) p = true <->
          exists d, ctx_data (context st) = Some d /\
            exists ps, permissions d = Some ps /\ p ∈ ps) as Hperm.
  { unfold permissionGranted. destruct (ctx_data (context st)) as [d|].
    - split.
      + intros H. exists d. split; [done|].
        destruct (permissions d) as [ps|]; [|done].
        exists ps. split; [done|]. by apply arrayIncludes_spec.
      + intros (d' & [= <-] & ps & H & Hin).
        rewrite H. by apply arrayIncludes_spec.
    - split; [done|]. by intros (d & ? & _). }
  unfold hasRole, hasPermission, forbidden. split_and!.
  - rewrite <- Hrole. by destruct (roleGranted _ _).
  - destruct (roleGranted _ _); auto.
  - rewrite <- Hperm. by destruct (permissionGranted _ _).
  - destruct (permissionGranted _ _); auto.
  - intros Hnone. rewrite Hnone. done.
Qed.

(** The chain ends at a rule that always answers. *)
Lemma runRules_decides (ps : Plugins) (rule : @Rule V W E)
    (rest : list (@Rule V W E)) (Q : Response -> Prop) (index : nat)
    (st : State) :
  (forall st0, exists response,
     rule st0 = (Normal (Some response), st0) /\ Q response) ->
  exists response st' evs,
    runRules ps (rule :: rest) index st = (Normal response, st', evs) /\
    ruleCalls evs = [(index, Returned (Some response))] /\ Q response.
Proof.
  intros Hrule. simpl.
  destruct (hooks_then ps (BeforeRule rule)
    (let* result := callRule index rule in
     executePluginHook ps (AfterRule rule result) >>
     match result with
     | Some response =>
         executePluginHook ps (AfterRequest (Some response)) >>
         ret response
     | None => runRules ps rest (S index)
     end) st) as (st1 & ev1 & Hr1 & ->).
  unfold bind at 1, callRule at 1.
  destruct (Hrule st1) as (response & -> & HQ).
  destruct (hooks_then ps (AfterRule rule (Some response))
    (executePluginHook ps (AfterRequest (Some response)) >> ret response)
    st1) as (st3 & ev3 & Hr3 & ->).
  destruct (hooks_then ps (AfterRequest (Some response))
              (ret response) st3) as (st4 & ev4 & Hr4 & ->).
  exists response. eexists _, _. split; [reflexivity|].
  split; [|done]. rewrite !ruleCalls_app, Hr1, Hr3, Hr4. done.
Qed.

End RuleFacts.

(** ** What the rules are given *)

Section RuleContext.
Import Builder Spec Spec2.
Context {T V W E : Type}.

Local Abbreviation Table := (@MiddlewareBuilder T V W E).

Lemma build_without_plugins (b : Table) (req : Request) (w w1 : W)
    (r : RouteDefinition) (d : option T) :
  plugins b = [] ->
  findMatchingRoute b (req_pathname req) = Some r ->
  fetchUserFn b req w = (Normal d, w1) ->
  build b req w =
    let '(c, st, evs) :=
      tryCatch (runRules [] (rules r) 0) (catchBlock b req)
        {| context :=
             {| ctx_data := d;
                ctx_req := req;
                ctx_path := req_pathname req;
                ctx_params :=
                  extractParams (req_pathname req) (pattern r) (isExact r)
                    (prefix r);
                ctx_metadata := metadata r ∪ defaultMetadata b |};
           world := w1 |} in
    (c, st, FindRoute (req_pathname req) :: FetchUser :: evs).
Proof.
  intros Hps Hroute Hfetch.
  unfold build, tryCatch, tryBlock, resolveAndRun.
  rewrite Hps, Hroute. simpl executePluginHook.
  unfold fetchUser, bind, ret, emit, modifyContext. simpl.
  rewrite Hfetch.
  destruct (runRules [] (rules r) 0 _) as [[[response|e] st1] ev1]; [done|].
  by destruct (catchBlock b req e st1) as [[c st2] ev2].
Qed.

(** X9.  Without plugins, the rules of the matched route run on a context
    whose [params] are those [extractParams] yields for that route, whose
    [data] is what the fetcher resolved to, whose [metadata] are the
    default metadata overridden by the route's, and whose [path] is the
    request pathname; before them the handler has only resolved the route
    and fetched the data. *)
Theorem rules_receive_params_and_data (b : Table) (req : Request) (w w1 : W)
    (r : RouteDefinition) (d : option T) :
  plugins b = [] ->
  findMatchingRoute b (req_pathname req) = Some r ->
  fetchUserFn b req w = (Normal d, w1) ->
  let given :=
    {| context :=
         {| ctx_data := d;
            ctx_req := req;
            ctx_path := req_pathname req;
            ctx_params :=
              extractParams (req_pathname req) (pattern r) (isExact r)
                (prefix r);
            ctx_metadata := metadata r ∪ defaultMetadata b |};
       world := w1 |} in
  build b req w =
    let '(c, st, evs) :=
      tryCatch (runRules [] (rules r) 0) (catchBlock b req) given in
    (c, st, FindRoute (req_pathname req) :: FetchUser :: evs).
Proof. apply build_without_plugins. Qed.

End RuleContext.

Section LoginRule.
Import Builder Spec Spec2 Rules.
Context {V W E : Type}.

Local Abbreviation Table := (@MiddlewareBuilder UserData V W E).

(** X10.  On a route whose first rule is [isLoggedIn()], without plugins,
    an anonymous request (the fetcher resolves to [null]) is answered by
    the redirect to [/sign-in] on the fixed base [http://localhost:3000],
    whatever the URL of the request, and no other rule is called; with user
    data the rule returns [null] and the chain goes on with the next
    rule. *)
Theorem isLoggedIn_gates_the_route (b : Table) (req : Request) (w w1 : W)
    (r : RouteDefinition) (rest : list (@Rule V W E))
    (d : option UserData) :
  plugins b = [] ->
  findMatchingRoute b (req_pathname req) = Some r ->
  fetchUserFn b req w = (Normal d, w1) ->
  rules r = isLoggedIn :: rest ->
  (d = None ->
   exists st evs,
     build b req w =
       (Normal (Redirect "/sign-in" "http://localhost:3000"), st, evs) /\
     ruleCalls evs =
       [(0%nat,
         Returned (Some (Redirect "/sign-in" "http://localhost:3000")))]) /\
  (d <> None ->
   exists c st evs later,
     build b req w = (c, st, evs) /\
     ruleCalls evs = (0%nat, Returned None) :: later /\
     (rest <> [] -> later <> [])).
Proof.
  intros Hps Hroute Hfetch Hrules.
  rewrite (build_without_plugins b req w w1 r d Hps Hroute Hfetch).
  rewrite Hrules. unfold tryCatch. simpl runRules.
  unfold bind, ret, callRule, isLoggedIn. simpl.
  split.
  - intros ->. simpl. by eexists _, _.
  - intros Hd. destruct d as [u|]; [|done]. simpl.
    destruct rest as [|next rest].
    + simpl. eexists _, _, _, _. by split_and!.
    + simpl runRules. unfold bind, ret, callRule. simpl.
      destruct (next _) as [[[response|]|e] st1]; simpl.
      * eexists _, _, _, _. by split_and!.
      * destruct (runRules [] rest 2 st1) as [[[response|e] st2] ev2];
          simpl.
        -- eexists _, _, _, _. by split_and!.
        -- destruct (catchBlock_normal b req e st2)
             as (response & st3 & ev3 & -> & Hr3 & _).
           eexists _, _, _, _. by split_and!.
      * destruct (catchBlock_normal b req e st1)
          as (response & st3 & ev3 & -> & Hr3 & _).
        eexists _, _, _, _. by split_and!.
Qed.

(** X8.  [isNotLoggedIn()] never returns [null]: it answers with the
    pass-through response for an anonymous request and with the redirect
    to [/] otherwise, and leaves the context as it is.  So on a route
    whose first rule it is, the handler answers with one of the two and
    calls none of the rules listed after it; without plugins the answer is
    the pass-through response when the fetcher resolves to [null] and the
    redirect when it resolves to user data. *)
Theorem isNotLoggedIn_ends_the_chain (b : Table) (req : Request) (w w1 : W)
    (r : RouteDefinition) (rest : list (@Rule V W E))
    (d : option UserData) :
  let answer (data : option UserData) :=
    match data with
    | None => PassThrough
    | Some _ => Redirect "/" "http://localhost:3000"
    end in
  (forall st : @Store UserData V W,
     @isNotLoggedIn V W E st
       = (Normal (Some (answer (ctx_data (context st)))), st)) /\
  (findMatchingRoute b (req_pathname req) = Some r ->
   rules r = isNotLoggedIn :: rest ->
   ((forall w0, exists d0 w2, fetchUserFn b req w0 = (Normal d0, w2)) ->
    exists response st evs,
      build b req w = (Normal response, st, evs) /\
      ruleCalls evs = [(0%nat, Returned (Some response))] /\
      (response = PassThrough
       \/ response = Redirect "/" "http://localhost:3000")) /\
   (plugins b = [] ->
    fetchUserFn b req w = (Normal d, w1) ->
    exists st evs,
      build b req w = (Normal (answer d), st, evs) /\
      ruleCalls evs = [(0%nat, Returned (Some (answer d)))])).
Proof.
  cbv zeta.
  assert (forall st : @Store UserData V W,
    @isNotLoggedIn V W E st =
      (Normal (Some match ctx_data (context st) with
                    | None => PassThrough
                    | Some _ => Redirect "/" "http://localhost:3000"
                    end), st)) as Hrule.
  { intros st. unfold isNotLoggedIn.
    by destruct (ctx_data (context st)). }
  split; [done|]. intros Hroute Hrules. split.
  - intros Hfetch.
    destruct (build_matched b req w r Hroute Hfetch)
      as (st0 & ev0 & c & st1 & ev1 & Hr0 & Hrun & Hbuild).
    rewrite Hrules in Hrun.
    destruct (runRules_decides (plugins b) isNotLoggedIn rest
                (fun response =>
                   response = PassThrough
                   \/ response = Redirect "/" "http://localhost:3000")
                0 st0) as (response & st' & evs & Hrun' & Hcalls & HQ).
    { intros st. rewrite Hrule.
      destruct (ctx_data (context st)); eexists; split; eauto. }
    rewrite Hrun in Hrun'. injection Hrun' as -> -> ->.
    exists response, st', (ev0 ++ evs). split_and!; [done | | done].
    by rewrite ruleCalls_app, Hr0.
  - intros Hps Hfetch.
    rewrite (build_without_plugins b req w w1 r d Hps Hroute Hfetch).
    rewrite Hrules. unfold tryCatch. simpl runRules.
    unfold bind, ret, callRule. rewrite Hrule. simpl.
    by eexists _, _.
Qed.

End LoginRule.

(** ** The rate limiter *)

Section RateLimitFacts.
Import Spec2 Rules.

Local Abbreviation Table := (gmap string (list Z)).
Local Abbreviation Log := (list (string * Z * option Response)).

Local Abbreviation recorded :=
  (fun (table : Table) (ip : string) => default [] (table !! ip)).

Local Abbreviation after :=
  (fun (since : Z) (times : list Z) =>
     List.filter (fun time => since <? time) times).

Lemma after_after (t now : Z) (times : list Z) :
  now <= t -> after t (after now times) = after t times.
Proof.
  intros Ht. induction times as [|x times IH]; [done|]. simpl.
  destruct (Z.ltb_spec now x) as [H1|H1]; simpl.
  - destruct (Z.ltb_spec t x); by rewrite IH.
  - destruct (Z.ltb_spec t x); [lia | apply IH].
Qed.

Lemma admitted_app (ip : string) (since : Z) (log log' : Log) :
  admitted ip since (log ++ log')
    = admitted ip since log ++ admitted ip since log'.
Proof. apply omap_app. Qed.

(** What one call does to the map. *)
Lemma rateLimit_cases (options : RateLimitOptions) (ip : string) (now : Z)
    (table : Table) :
  let recent := after (now - window options) (recorded table ip) in
  (requests options <= Z.of_nat (length recent) /\
   exists table',
     rateLimit options ip now table
       = (Some (Json "error: Rate limit exceeded" 429), table') /\
     forall ip', recorded table' ip' = recorded table ip') \/
  (Z.of_nat (length recent) < requests options /\
   exists table',
     rateLimit options ip now table = (None, table') /\
     recorded table' ip = recent ++ [now] /\
     forall ip', ip' <> ip -> recorded table' ip' = recorded table ip').
Proof.
  cbv zeta. unfold rateLimit.
  set (table1 := match table !! ip with
                 | Some _ => table
                 | None => <[ip := []]> table
                 end).
  assert (forall ip', recorded table1 ip' = recorded table ip') as Hsame.
  { intros ip'. subst table1. destruct (table !! ip) eqn:Hip; [done|].
    destruct (decide (ip' = ip)) as [->|Hne].
    - by rewrite lookup_insert_eq, Hip.
    - by rewrite lookup_insert_ne. }
  rewrite (Hsame ip).
  destruct (Z.leb_spec (requests options)
              (Z.of_nat (length (after (now - window options)
                                   (recorded table ip))))) as [Hle|Hlt].
  - left. split; [done|]. by exists table1.
  - right. split; [done|]. eexists. split; [done|]. split.
    + by rewrite lookup_insert_eq.
    + intros ip' Hne. rewrite lookup_insert_ne by done. apply Hsame.
Qed.

Lemma run_admits (options : RateLimitOptions) (calls : list (string * Z))
    (table : Table) (past : Log) (from : Z) :
  inStep options table past from ->
  timesAscend from calls ->
  forall k ip now result,
    (rateLimitRun options calls table).1 !! k = Some (ip, now, result) ->
    (result = None <->
     Z.of_nat
       (length
          (admitted ip (now - window options)
             (past ++ take k (rateLimitRun options calls table).1)))
       < requests options).
Proof.
  revert table past from.
  induction calls as [|[ip0 now0] calls IH]; intros table past from Hinv
    Hasc k ip now result Hk; [done|].
  destruct Hasc as [Hfrom Hasc].
  simpl in Hk |- *.
  pose proof (Hinv ip0 now0 Hfrom) as Hnow.
  destruct (rateLimit_cases options ip0 now0 table)
    as [(Hcount & table' & Hstep & Hother)
       |(Hcount & table' & Hstep & Hself & Hother)];
    rewrite Hstep in Hk |- *; rewrite Hnow in Hcount;
    destruct (rateLimitRun options calls table') as [log final] eqn:Hrun;
    simpl in Hk |- *.
  - destruct k as [|k]; simpl in Hk |- *.
    + injection Hk as <- <- <-. rewrite app_nil_r. split; [done | lia].
    + replace (past ++ (ip0, now0, Some (Json "error: Rate limit exceeded" 429))
                    :: take k log)
        with ((past ++ [(ip0, now0,
                         Some (Json "error: Rate limit exceeded" 429))])
                ++ take k log) by by rewrite <- app_assoc.
      pose proof (IH table'
                    (past ++ [(ip0, now0,
                               Some (Json "error: Rate limit exceeded" 429))])
                    now0) as IH'.
      rewrite Hrun in IH'. simpl in IH'. apply IH'; [|done|done].
      intros ip' t Ht. rewrite Hother, admitted_app. simpl.
      rewrite app_nil_r. apply Hinv. lia.
  - destruct k as [|k]; simpl in Hk |- *.
    + injection Hk as <- <- <-. rewrite app_nil_r. split; [lia | done].
    + replace (past ++ (ip0, now0, None) :: take k log)
        with ((past ++ [(ip0, now0, None)]) ++ take k log)
        by by rewrite <- app_assoc.
      pose proof (IH table' (past ++ [(ip0, now0, None)]) now0) as IH'.
      rewrite Hrun in IH'. simpl in IH'. apply IH'; [|done|done].
      intros ip' t Ht. rewrite admitted_app. simpl.
      destruct (String.eqb_spec ip0 ip') as [<-|Hne]; simpl.
      * rewrite Hself, List.filter_app, after_after by lia.
        rewrite Hinv by lia. simpl.
        by destruct (t - window options <? now0).
      * rewrite Hother by done. rewrite app_nil_r. apply Hinv. lia.
Qed.

(** X11.  The rate limit holds: when the clock never goes back, a call is
    let through exactly when fewer than [requests] calls of the same
    address were let through within the [window] before it, and is
    answered 429 otherwise; the calls answered 429 do not count. *)
Theorem rate_limit_holds (options : RateLimitOptions)
    (calls : list (string * Z)) (from : Z) (k : nat) (ip : string)
    (now : Z) (result : option Response) :
  timesAscend from calls ->
  let log := (rateLimitRun options calls ∅).1 in
  log !! k = Some (ip, now, result) ->
  (result = None <->
   Z.of_nat (length (admitted ip (now - window options) (take k log)))
     < requests options) /\
  (result = None \/ result = Some (Json "error: Rate limit exceeded" 429)).
Proof.
  intros Hasc log Hk. split.
  - apply (run_admits options calls ∅ [] from); [|done|done].
    intros ip' t _. rewrite lookup_empty. done.
  - clear Hasc. subst log. revert k Hk. generalize (∅ : Table).
    induction calls as [|[ip0 now0] calls IH]; intros table k Hk; [done|].
    simpl in Hk.
    destruct (rateLimit_cases options ip0 now0 table)
      as [(_ & table' & Hstep & _)|(_ & table' & Hstep & _)];
      rewrite Hstep in Hk;
      destruct (rateLimitRun options calls table') as [log final] eqn:Hrun;
      (destruct k as [|k]; simpl in Hk;
       [injection Hk as <- <- <-; auto
       | apply (IH table' k); by rewrite Hrun]).
Qed.

(** X12.  A call answered 429 changes no recorded time; a call let through
    records its own time after the times of its address that still count
    and drops the others; the times of the other addresses are left alone;
    and no address ever has more than [requests] times recorded. *)
Theorem rate_limit_records (options : RateLimitOptions) (ip : string)
    (now : Z) (table : Table) :
  let recent :=
    List.filter (fun time => now - window options <? time)
      (default [] (table !! ip)) in
  let table' := (rateLimit options ip now table).2 in
  ((rateLimit options ip now table).1 <> None ->
   forall ip', default [] (table' !! ip') = default [] (table !! ip')) /\
  ((rateLimit options ip now table).1 = None ->
   default [] (table' !! ip) = recent ++ [now]) /\
  (forall ip', ip' <> ip ->
     default [] (table' !! ip') = default [] (table !! ip')) /\
  ((forall ip',
      Z.of_nat (length (default [] (table !! ip')))
        <= Z.max 0 (requests options)) ->
   forall ip',
     Z.of_nat (length (default [] (table' !! ip')))
       <= Z.max 0 (requests options)).
Proof.
  cbv zeta.
  destruct (rateLimit_cases options ip now table)
    as [(Hcount & table' & Hstep & Hother)
       |(Hcount & table' & Hstep & Hself & Hother)];
    rewrite Hstep; simpl.
  - split_and!.
    + intros _ ip'. apply Hother.
    + done.
    + intros ip' _. apply Hother.
    + intros Hbound ip'. rewrite Hother. apply Hbound.
  - split_and!.
    + done.
    + intros _. apply Hself.
    + apply Hother.
    + intros Hbound ip'. destruct (decide (ip' = ip)) as [->|Hne].
      * rewrite Hself, length_app. simpl. lia.
      * rewrite Hother by done. apply Hbound.
Qed.

End RateLimitFacts.

(** ** The in-memory cache *)

Section CacheFacts.
Import MemoryCacheStorage.
Context {Val : Type}.

Local Abbreviation Cache := (gmap string (@Item Val)).

(** X13.  A value that was set is read back, and the cache left as it is,
    until its time to live is over: the [ttl] given, or one hour when the
    [ttl] is omitted or [0].  Past that time [get] answers [null] and
    removes the entry. *)
Theorem cache_keeps_value_until_expiry (key : string) (v : Val)
    (ttl : option Z) (now t : Z) (cache : Cache) (x : Z) :
  let stored := set key v ttl now cache in
  (ttl = Some x -> x <> 0 ->
   (t <= now + x -> get key t stored = (Some v, stored)) /\
   (now + x < t -> get key t stored = (None, delete key cache))) /\
  (ttl = None \/ ttl = Some 0 ->
   (t <= now + 3600000 -> get key t stored = (Some v, stored)) /\
   (now + 3600000 < t -> get key t stored = (None, delete key cache))).
Proof.
  cbv zeta. unfold get, set. split.
  - intros -> Hx. destruct (Z.eqb_spec x 0) as [|_]; [done|].
    rewrite lookup_insert_eq. simpl. split; intros Ht.
    + by destruct (Z.ltb_spec (now + x) t); [lia|].
    + destruct (Z.ltb_spec (now + x) t); [|lia].
      by rewrite delete_insert_eq.
  - intros Httl.
    assert (match ttl with
            | Some t0 => if t0 =? 0 then now + 3600000 else now + t0
            | None => now + 3600000
            end = now + 3600000) as -> by (by destruct Httl as [->| ->]).
    rewrite lookup_insert_eq. simpl. split; intros Ht.
    + by destruct (Z.ltb_spec (now + 3600000) t); [lia|].
    + destruct (Z.ltb_spec (now + 3600000) t); [|lia].
      by rewrite delete_insert_eq.
Qed.

(** X14.  Reading a key that is not in the cache answers [null] and leaves
    the cache as it is; setting or reading one key does not change what is
    stored under another; a key that was deleted, or any key once the cache
    was cleared, reads [null]; and after a [get] that answered [null],
    every later [get] of that key answers [null] too, whatever the time,
    until the key is set again. *)
Theorem cache_keys_are_independent (key key' : string) (v : Val)
    (ttl : option Z) (now t t' : Z) (cache : Cache) :
  (cache !! key = None -> get key t cache = (None, cache)) /\
  (key' <> key ->
   (get key' t (set key v ttl now cache)).1 = (get key' t cache).1 /\
   (get key t cache).2 !! key' = cache !! key') /\
  (get key t (delete_ key cache)).1 = None /\
  (get key t (clear cache)).1 = None /\
  ((get key t cache).1 = None ->
   (get key t' (get key t cache).2).1 = None).
Proof.
  unfold get, set, delete_, clear. split_and!.
  - intros Hnone. rewrite Hnone. by rewrite delete_id.
  - intros Hne. split.
    + rewrite lookup_insert_ne by congruence.
      destruct (cache !! key') as [item|]; [|done].
      by destruct (expires item <? t).
    + destruct (cache !! key) as [item|]; [destruct (_ <? _)|]; simpl;
        by rewrite ?lookup_delete_ne by congruence.
  - by rewrite lookup_delete_eq.
  - by rewrite lookup_empty.
  - destruct (cache !! key) as [item|] eqn:Hitem.
    + destruct (expires item <? t); simpl; [|done].
      intros _. by rewrite lookup_delete_eq.
    + simpl. intros _. by rewrite lookup_delete_eq.
Qed.

End CacheFacts.

(** ** The wildcard parameter and the path *)

Section WildcardRoundTrip.

(** X15.  For a route that is not exact, with a non-empty stored prefix and
    no segment [[*]] in its pattern, a path that matches is given back by
    the parameters: it is the prefix, and [*] is empty, or it is the
    prefix, a slash and the value bound to [*]. *)
Theorem wildcard_recovers_path (path pat p : string) :
  p <> "" ->
  (forall j, split "/" pat !! j <> Some "[*]") ->
  matchRoute path pat false (Some p) = true ->
  exists star,
    extractParams path pat false (Some p) !! "*" = Some star /\
    ((path = p /\ star = "") \/ path = p +:+ "/" +:+ star).
Proof.
  intros Hp Hstar Hmatch.
  assert (truthy p = true) as Htruthy
    by (unfold truthy; by destruct (String.eqb_spec p "")).
  unfold matchRoute in Hmatch. rewrite Htruthy in Hmatch.
  assert (forall m : gmap string string,
    (if includes pat "[" && includes pat "]"
     then bindBrackets (split "/" pat) 0 (split "/" path) m else m)
      !! "*" = m !! "*") as Hkeep.
  { intros m. destruct (_ && _); [|done]. by apply bindBrackets_other. }
  unfold extractParams. rewrite Hkeep.
  apply orb_true_iff in Hmatch as [->%String.eqb_eq|Hmore].
  - exists "". split; [by apply bindWildcard_prefix | by left].
  - apply startsWith_spec in Hmore as [more ->].
    rewrite string_app_assoc.
    exists more. split; [by apply bindWildcard_at | by right].
Qed.

Lemma wildcard_recovers_path_witness :
  exists star,
    extractParams "/docs/a/b" "/docs" false (Some "/docs") !! "*"
      = Some star /\
    (("/docs/a/b" = "/docs" /\ star = "")
     \/ "/docs/a/b" = "/docs" +:+ "/" +:+ star).
Proof.
  apply (wildcard_recovers_path "/docs/a/b" "/docs" "/docs"); try done.
  intros [|[|j]]; by vm_compute.
Defined.

End WildcardRoundTrip.

(** ** The legacy matcher: parameters, redirects, [apply] and [handle] *)

Section LegacyMore.
Import Legacy LegacyHandle.
Context {T W E : Type}.

Lemma extractFrom_other (parts : list string) (index : nat)
    (pathnameParts : list string) (params : gmap string (option string))
    (name : string) :
  (forall j, parts !! j <> Some ("[" +:+ name +:+ "]")) ->
  extractFrom parts index pathnameParts params !! name = params !! name.
Proof.
  revert index params.
  induction parts as [|part rest IH]; intros index params Hnone; [done|].
  simpl. rewrite IH by (intros j; apply (Hnone (S j))).
  destruct (isBracket part) eqn:Hb; [|done].
  apply lookup_insert_ne. intros Hname.
  apply (Hnone 0%nat). simpl. f_equal.
  rewrite <- Hname. by apply isBracket_name.
Qed.

(** X16.  The legacy [extractParams] binds the name of a bracket segment to
    the pathname segment at the index of the last segment of that name;
    when the pathname has no segment there the value is [undefined], not
    the empty string. *)
Theorem legacy_params_may_be_undefined (path pathname name : string)
    (i : nat) :
  split "/" path !! i = Some ("[" +:+ name +:+ "]") ->
  (forall j, (i < j)%nat ->
     split "/" path !! j <> Some ("[" +:+ name +:+ "]")) ->
  Legacy.extractParams path pathname !! name
    = Some (split "/" pathname !! i) /\
  ((length (split "/" pathname) <= i)%nat ->
   Legacy.extractParams path pathname !! name = Some None).
Proof.
  intros Hi Hlast.
  assert (forall k parts index params,
    parts !! k = Some ("[" +:+ name +:+ "]") ->
    (forall j, (k < j)%nat -> parts !! j <> Some ("[" +:+ name +:+ "]")) ->
    extractFrom parts index (split "/" pathname) params !! name
      = Some (split "/" pathname !! (index + k)%nat)) as Hfrom.
  { clear Hi Hlast i. intros k parts. revert k.
    induction parts as [|part rest IH]; intros i index params Hi Hlast;
      [done|].
    destruct i as [|i]; simpl in *.
    - injection Hi as ->.
      rewrite extractFrom_other by (intros j; apply (Hlast (S j)); lia).
      assert (isBracket ("[" +:+ name +:+ "]") = true) as ->
        by (apply isBracket_spec; eauto).
      rewrite slice_bracket, Nat.add_0_r. apply lookup_insert_eq.
    - rewrite (IH i (S index) _ Hi)
        by (intros j Hj; apply (Hlast (S j)); lia).
      do 2 f_equal. lia. }
  unfold Legacy.extractParams. rewrite (Hfrom i _ 0%nat ∅ Hi Hlast). simpl.
  split; [done|]. intros Hshort. by rewrite lookup_ge_None_2.
Qed.

Lemma legacy_params_may_be_undefined_witness :
  Legacy.extractParams "/users/[id]" "/users" !! "id" = Some None.
Proof.
  apply (legacy_params_may_be_undefined "/users/[id]" "/users" "id" 2).
  - reflexivity.
  - intros [|[|[|j]]] Hj; (lia || by vm_compute).
  - simpl. lia.
Defined.

Lemma concat_snoc (l : list string) (x : string) :
  l <> [] ->
  String.concat "/" (l ++ [x]) = String.concat "/" l +:+ "/" +:+ x.
Proof.
  induction l as [|y l IH]; [done|]. intros _.
  destruct l as [|z l]; [done|].
  change ((y :: z :: l) ++ [x]) with (y :: ((z :: l) ++ [x])).
  rewrite concat_cons by done. rewrite IH by done.
  rewrite (concat_cons "/" y (z :: l)) by done.
  by rewrite !string_app_assoc.
Qed.

(** X17.  [redirect(path, { params })] replaces bracket segments only: a
    path without bracket segments is recorded as it is, and a last segment
    [[key]] becomes the value [params] has for [key].  When [params] has no
    such property of its own, that is the empty string, unless [key] names
    a property that every object inherits ([toString], [constructor],
    ...), whose text is then put in the target. *)
Theorem legacy_redirect_fills_brackets (path key : string)
    (ps : gmap string string) :
  let withParams :=
    {| opt_params := Some ps; opt_query := None; opt_hash := None |} in
  (Forall (fun part => isBracket part = false) (split "/" path) ->
   redirectTarget path (Some withParams) = path) /\
  (includes key "/" = false ->
   redirectTarget (path +:+ "/" +:+ "[" +:+ key +:+ "]") (Some withParams)
     = redirectTarget path (Some withParams) +:+ "/" +:+
         match ps !! key with
         | Some v => v
         | None => if inherited key then inheritedText key else ""
         end) /\
  (includes key "/" = false -> ps !! key = None ->
   key ∉ objectPrototypeKeys ->
   redirectTarget (path +:+ "/" +:+ "[" +:+ key +:+ "]") (Some withParams)
     = redirectTarget path (Some withParams) +:+ "/") /\
  redirectTarget "/users/[toString]"
    (Some {| opt_params := Some ∅; opt_query := None; opt_hash := None |})
    = "/users/function toString() { [native code] }".
Proof.
  cbv zeta.
  assert (includes key "/" = false ->
    redirectTarget (path +:+ "/" +:+ "[" +:+ key +:+ "]")
      (Some {| opt_params := Some ps; opt_query := None;
               opt_hash := None |})
    = redirectTarget path
        (Some {| opt_params := Some ps; opt_query := None;
                 opt_hash := None |})
        +:+ "/" +:+ default "" (getProperty ps key)) as Hlast.
  { intros Hkey. unfold redirectTarget. simpl.
    rewrite split_app_slash, map_app.
    assert (includes ("[" +:+ key +:+ "]") "/" = false) as Hslash
      by (by rewrite string_app_cons, string_app_nil; simpl;
          rewrite includes_app, Hkey).
    rewrite (split_no_slash _ Hslash). simpl.
    assert (isBracket ("[" +:+ key +:+ "]") = true) as ->
      by (apply isBracket_spec; eauto).
    rewrite slice_bracket. apply concat_snoc.
    pose proof (split_nonempty path). by destruct (split "/" path). }
  split_and!.
  - intros Hnone. unfold redirectTarget. simpl.
    rewrite <- (join_split path) at 2. f_equal.
    induction Hnone as [|part parts Hpart _ IH]; [done|].
    simpl. by rewrite Hpart, IH.
  - intros Hkey. rewrite (Hlast Hkey). unfold getProperty.
    destruct (ps !! key); [done|]. by destruct (inherited key).
  - intros Hkey Hown Hfresh. rewrite (Hlast Hkey). unfold getProperty.
    rewrite Hown.
    assert (inherited key = false) as ->; [|done].
    apply not_true_is_false. unfold inherited.
    intros (k & Hin & ->%String.eqb_eq)%existsb_exists.
    by apply Hfresh, list_elem_of_In.
  - by vm_compute.
Qed.

Lemma legacy_redirect_fills_brackets_witness :
  redirectTarget "/users/[id]"
    (Some {| opt_params := Some {[ "id" := "42" ]}; opt_query := None;
             opt_hash := None |})
  = "/users/42" /\
  redirectTarget "/users/[id]"
    (Some {| opt_params := Some ∅; opt_query := None; opt_hash := None |})
  = "/users/".
Proof.
  split.
  - destruct (legacy_redirect_fills_brackets "/users" "id"
                {[ "id" := "42" ]}) as (_ & H & _).
    exact (H eq_refl).
  - destruct (legacy_redirect_fills_brackets "/users" "id" ∅)
      as (_ & _ & H & _).
    apply H; [done | done |].
    intros Hin. by repeat (apply elem_of_cons in Hin as [|Hin]; [done|]);
      apply elem_of_nil in Hin.
Defined.

Lemma apply_single (rs : list (@RuleFunction T W E)) (req : Request)
    (p pathname : string) (data : T) (w : W) :
  match_ p pathname = true ->
  apply [(p, rs)] req pathname data w =
    match applyPath rs req p pathname data w with
    | (inl response, w') => (inl (Some response), w')
    | (inr e, w') => (inr e, w')
    end.
Proof.
  intros Hmatch. unfold apply. simpl. rewrite Hmatch, sortPaths_groups.
  assert (rulesOf [(p, rs)] p = rs) as Hrules
    by (unfold rulesOf; simpl; by rewrite String.eqb_refl).
  simpl. destruct (isWildcard p); simpl; by rewrite Hrules.
Qed.

Lemma rev_last (l : list string) (p : string) :
  last l = Some p -> exists rest, rev l = p :: rest.
Proof.
  intros [l' ->]%last_Some. exists (rev l').
  by rewrite rev_app_distr.
Qed.

Lemma filter_none_plain (l : list string) :
  List.filter (fun path => negb (isWildcard path)) l = [] ->
  List.filter isWildcard l = l.
Proof.
  induction l as [|x l IH]; [done|]. simpl.
  destruct (isWildcard x); simpl; [|done]. intros Hnone. by rewrite IH.
Qed.

(** X18.  The legacy [apply] runs the rules of one pattern only.  With no
    matching pattern it returns nothing.  Otherwise (for fewer than 64
    matching patterns) the pattern is the one registered last among the
    matching patterns that are no wildcards, or, when every matching
    pattern is a wildcard, the one registered last among them; the outcome
    is that of a table with this pattern alone. *)
Theorem legacy_apply_runs_one_pattern (rules : @AuthRules T W E)
    (req : Request) (pathname p : string) (data : T) (w : W) :
  let matched :=
    List.filter (fun path => match_ path pathname) (map fst rules) in
  let plainOnes :=
    List.filter (fun path => negb (isWildcard path)) matched in
  (length matched < 64)%nat ->
  (matched = [] -> apply rules req pathname data w = (inl None, w)) /\
  (last plainOnes = Some p \/ (plainOnes = [] /\ last matched = Some p) ->
   apply rules req pathname data w
     = apply [(p, rulesOf rules p)] req pathname data w).
Proof.
  cbv zeta. intros _. split.
  - intros Hnone. unfold apply. cbv zeta. by rewrite Hnone.
  - intros Hlast.
    assert (exists rest,
      sortPaths (List.filter (fun path => match_ path pathname)
                   (map fst rules)) = p :: rest) as [rest Hsorted].
    { rewrite sortPaths_groups.
      destruct Hlast as [Hplain|[Hnone Hwild]].
      - apply rev_last in Hplain as [rest ->]. by eexists.
      - rewrite Hnone. simpl. rewrite filter_none_plain by done.
        by apply rev_last. }
    assert (match_ p pathname = true) as Hmatch.
    { assert (In p (sortPaths (List.filter
        (fun path => match_ path pathname) (map fst rules)))) as Hin
        by (rewrite Hsorted; by left).
      rewrite sortPaths_groups in Hin.
      apply in_app_or in Hin as [Hin|Hin];
        apply in_rev, List.filter_In in Hin as [Hin _];
        by apply List.filter_In in Hin as [_ Hin]. }
    rewrite apply_single by done.
    unfold apply. cbv zeta. by rewrite Hsorted.
Qed.


End LegacyMore.

(** ** What registration keeps *)

Section RegisteredTables.
Import Builder Spec Spec2.
Context {T V W E : Type}.

Local Abbreviation Route := (@RouteDefinition T V W E).
Local Abbreviation Table := (@MiddlewareBuilder T V W E).

(** What every registration method stores in a route. *)
Local Abbreviation wellFormed :=
  (fun r : Route =>
     priority r = calculatePriority (pattern r) (isExact r) /\
     (isExact r = true -> prefix r = None)).

Lemma registered_routes (options : @MiddlewareBuilderOptions T V W E)
    (b : Table) :
  Registered options b -> Forall wellFormed (routes b).
Proof.
  induction 1 as [|b p _ IH|b paths _ IH|b path rs _ IH|b pre rs _ IH
                 |b path ro _ IH]; simpl routes; try done.
  - apply Forall_app. split; [done|]. by repeat constructor.
  - apply Forall_app. split; [done|]. by repeat constructor.
  - apply Forall_app. split; [done|]. repeat constructor; simpl.
    by intros ->.
Qed.

(** X20.  Whatever the order of the calls to [use], [registerAuthPaths],
    [exact], [prefix] and [route], every route of the table has the
    priority that [calculatePriority] gives its pattern and kind, every
    exact route stores no prefix, and the fetcher and the default metadata
    are those the constructor was given. *)
Theorem registration_keeps_priorities
    (options : @MiddlewareBuilderOptions T V W E) (b : Table) :
  Registered options b ->
  Forall (fun r =>
            priority r = calculatePriority (pattern r) (isExact r) /\
            (isExact r = true -> prefix r = None))
    (routes b) /\
  fetchUserFn b = opt_fetchUser options /\
  defaultMetadata b = default ∅ (opt_defaultMetadata options).
Proof.
  intros Hb. split; [by apply (registered_routes options)|].
  induction Hb; simpl; done.
Qed.

(** X21.  Exact routes come before prefix routes.  In a table built by the
    registration methods, when the request path has fewer than 100
    segments and no prefix pattern has more than 100 non-empty segments,
    the exact route registered first for the path is the one resolved,
    whatever prefix routes match the path and wherever they were
    registered. *)
Theorem exact_route_beats_prefix_routes
    (options : @MiddlewareBuilderOptions T V W E) (b : Table)
    (path : string) (pre post : list Route) (r : Route) :
  Registered options b ->
  routes b = pre ++ r :: post ->
  isExact r = true ->
  pattern r = path ->
  Forall (fun x => isExact x = true -> pattern x <> path) pre ->
  (segmentCount path < 100)%nat ->
  Forall (fun x => isExact x = false ->
                   (nonEmptySegments (stripGlob (pattern x)) <= 100)%nat)
    (routes b) ->
  findMatchingRoute b path = Some r.
Proof.
  intros Hb Hroutes Hexact Hpattern Hfirst Hpath Hdepth.
  apply (registered_routes options) in Hb.
  unfold findMatchingRoute.
  rewrite find_sortByPriority, Hroutes. rewrite Hroutes in Hb, Hdepth.
  apply Forall_app in Hb as [Hpre Hb].
  apply Forall_cons in Hb as [[Hr _] Hpost].
  apply Forall_app in Hdepth as [Hdpre Hdepth].
  apply Forall_cons in Hdepth as [_ Hdpost].
  rewrite Hexact, Hpattern, calculatePriority_exact in Hr.
  assert (forall x : Route,
    priority x = calculatePriority (pattern x) (isExact x) ->
    (isExact x = false ->
     (nonEmptySegments (stripGlob (pattern x)) <= 100)%nat) ->
    routeMatches path x = true ->
    (isExact x = true /\ pattern x = path /\ priority x = priority r)
    \/ (isExact x = false /\ priority r < priority x)) as Hcases.
  { intros x Hx Hd Hm. unfold routeMatches in Hm.
    destruct (isExact x) eqn:Hkind.
    - apply matchRoute_exact in Hm. left.
      by rewrite Hx, <- Hm, calculatePriority_exact, Hr.
    - right. split; [done|].
      rewrite Hx, calculatePriority_prefix, Hr.
      specialize (Hd eq_refl). lia. }
  apply firstBest_pick.
  - unfold routeMatches. rewrite Hexact. by apply matchRoute_exact.
  - apply Forall_forall. intros x Hx Hm.
    destruct (Hcases x
                (proj1 (proj1 (Forall_forall _ _) Hpre x Hx))
                (proj1 (Forall_forall _ _) Hdpre x Hx) Hm)
      as [(Hk & Hp & _)|[_ Hlt]]; [|done].
    by apply (proj1 (Forall_forall _ _) Hfirst x Hx) in Hk.
  - apply Forall_forall. intros x Hx Hm.
    destruct (Hcases x
                (proj1 (proj1 (Forall_forall _ _) Hpost x Hx))
                (proj1 (Forall_forall _ _) Hdpost x Hx) Hm)
      as [(_ & _ & Heq)|[_ Hlt]]; lia.
Qed.

End RegisteredTables.

(** ** The sample tables, again *)

Section MoreSamples.
Import Builder Spec Spec2 Examples Scenarios.

Lemma resolution_needs_no_sort_witness :
  findMatchingRoute twoDocs "/docs/intro" = Some docsRoute.
Proof.
  destruct (resolution_needs_no_sort twoDocs "/docs/intro" []
              [docsSlashRoute] docsRoute) as (_ & Hfirst & _).
  apply Hfirst.
  - reflexivity.
  - reflexivity.
  - constructor.
  - repeat constructor. intros _. simpl. lia.
Defined.

Lemma unmatched_path_passes_through_witness :
  exists st evs,
    build guarded (request "/elsewhere") 0%nat
      = (Normal PassThrough, st, evs) /\
    List.filter isFetch evs = [] /\
    ruleCalls evs = [] /\
    hookCalls beforeRequest_ evs = ["faulty"] /\
    hookCalls afterRequest_ evs = ["faulty"].
Proof.
  apply (unmatched_path_passes_through guarded (request "/elsewhere") 0%nat).
  reflexivity.
Defined.

Lemma first_onError_response_wins_witness :
  exists st evs,
    build rescuedApi (request "/api/x") 0%nat
      = (Normal (Json "handled" 500), st, evs).
Proof.
  destruct (first_onError_response_wins rescuedApi (request "/api/x") 0%nat
              [shrugs] rescuer [] (Json "handled" 500)) as (_ & Hbuild).
  - reflexivity.
  - repeat constructor. intros f [= <-] e st response st'. done.
  - eexists. split; [reflexivity|]. intros e st. by exists st.
  - eapply Hbuild. reflexivity.
Defined.

Lemma role_and_permission_rules_witness :
  @Rules.hasRole string nat string "admin" adminState
    = (Normal None, adminState) /\
  @Rules.hasPermission string nat string "delete" adminState
    <> (Normal None, adminState).
Proof.
  destruct (@role_and_permission_rules string nat string "admin" "delete"
              adminState) as (Hrole & _ & Hpermission & _).
  split.
  - apply Hrole. exists admin. split; [reflexivity | by left].
  - intros (d & [= <-] & ps & [= <-] & Hin)%Hpermission.
    by repeat (apply elem_of_cons in Hin as [|Hin]; [done|]);
      apply elem_of_nil in Hin.
Defined.

Lemma isNotLoggedIn_ends_the_chain_witness :
  exists st evs,
    build signIn (request "/sign-in") 0%nat
      = (Normal (Redirect "/" "http://localhost:3000"), st, evs) /\
    ruleCalls evs =
      [(0%nat, Returned (Some (Redirect "/" "http://localhost:3000")))].
Proof.
  destruct (isNotLoggedIn_ends_the_chain signIn (request "/sign-in")
              0%nat 0%nat signInRoute [Rules.hasRole "admin"] (Some admin))
    as (_ & Hchain).
  destruct Hchain as (_ & Hanswer); [reflexivity | reflexivity |].
  by apply Hanswer.
Defined.

Lemma rules_receive_params_and_data_witness :
  build twoDocs (request "/docs/intro") 0%nat =
    let '(c, st, evs) :=
      tryCatch (runRules [] [passes] 0) (catchBlock twoDocs
                                           (request "/docs/intro"))
        {| context :=
             {| ctx_data := Some "alice";
                ctx_req := request "/docs/intro";
                ctx_path := "/docs/intro";
                ctx_params := {[ "*" := "intro" ]};
                ctx_metadata := ∅ |};
           world := 0%nat |} in
    (c, st, FindRoute "/docs/intro" :: FetchUser :: evs).
Proof.
  apply (rules_receive_params_and_data twoDocs (request "/docs/intro")
           0%nat 0%nat docsRoute (Some "alice")); reflexivity.
Defined.

Lemma isLoggedIn_gates_the_route_witness :
  exists st evs,
    build account (request "/account") 0%nat =
      (Normal (Redirect "/sign-in" "http://localhost:3000"), st, evs) /\
    ruleCalls evs =
      [(0%nat,
        Returned (Some (Redirect "/sign-in" "http://localhost:3000")))].
Proof.
  destruct (isLoggedIn_gates_the_route account (request "/account")
              0%nat 0%nat accountRoute [Rules.hasRole "admin"] None)
    as (Hanonymous & _); try reflexivity.
  by apply Hanonymous.
Defined.

Lemma rate_limit_holds_witness :
  ~ Z.of_nat
      (length
         (admitted "10.0.0.1" (20 - Rules.window twoASecond)
            (take 2 (rateLimitRun twoASecond burst ∅).1)))
    < Rules.requests twoASecond.
Proof.
  destruct (rate_limit_holds twoASecond burst 0 2 "10.0.0.1" 20
              (Some (Json "error: Rate limit exceeded" 429)))
    as (Hiff & _).
  - simpl. lia.
  - reflexivity.
  - intros Hless. by apply Hiff in Hless.
Defined.

Lemma rate_limit_records_witness :
  default []
    ((Rules.rateLimit twoASecond "10.0.0.1" 2000
        {[ "10.0.0.1" := [0; 1500] ]}).2 !! "10.0.0.1")
  = [1500; 2000].
Proof.
  destruct (rate_limit_records twoASecond "10.0.0.1" 2000
              {[ "10.0.0.1" := [0; 1500] ]}) as (_ & Hadmitted & _).
  by apply Hadmitted.
Defined.

Lemma cache_keeps_value_until_expiry_witness :
  MemoryCacheStorage.get "page" 60
    (MemoryCacheStorage.set "page" "body" (Some 100) 0 ∅)
  = (Some "body", MemoryCacheStorage.set "page" "body" (Some 100) 0 ∅).
Proof.
  destruct (cache_keeps_value_until_expiry "page" "body" (Some 100) 0 60
              (∅ : gmap string (@MemoryCacheStorage.Item string)) 100)
    as (Hgiven & _).
  destruct Hgiven as (Hfresh & _); [reflexivity | lia |].
  apply Hfresh. lia.
Defined.

Lemma cache_keys_are_independent_witness :
  (MemoryCacheStorage.get "page" 5000
     (MemoryCacheStorage.get "page" 200
        (MemoryCacheStorage.set "page" "body" (Some 100) 0 ∅)).2).1
  = None.
Proof.
  destruct (cache_keys_are_independent "page" "other" "body" None 0 200 5000
              (MemoryCacheStorage.set "page" "body" (Some 100) 0 ∅))
    as (_ & _ & _ & _ & Hgone).
  by apply Hgone.
Defined.

Lemma legacy_apply_runs_one_pattern_witness :
  Legacy.apply blog blogRequest "/blog/latest" tt tt
  = Legacy.apply [("/blog/[slug]", [does [Legacy.CallNext]])]
      blogRequest "/blog/latest" tt tt.
Proof.
  destruct (legacy_apply_runs_one_pattern blog blogRequest "/blog/latest"
              "/blog/[slug]" tt tt) as (_ & Hone).
  - simpl. lia.
  - apply Hone. by left.
Defined.


Lemma registration_keeps_priorities_witness :
  Forall (fun r =>
            priority r = calculatePriority (pattern r) (isExact r) /\
            (isExact r = true -> prefix r = None))
    (routes docsWithIntro) /\
  fetchUserFn docsWithIntro = opt_fetchUser sampleOptions /\
  defaultMetadata docsWithIntro = ∅.
Proof.
  apply (registration_keeps_priorities sampleOptions docsWithIntro).
  repeat constructor.
Defined.

Lemma exact_route_beats_prefix_routes_witness :
  findMatchingRoute docsWithIntro "/docs/intro" = Some introRoute.
Proof.
  apply (exact_route_beats_prefix_routes sampleOptions docsWithIntro
           "/docs/intro" [docsRoute; docsSlashRoute] [] introRoute).
  - repeat constructor.
  - reflexivity.
  - reflexivity.
  - reflexivity.
  - by repeat constructor.
  - apply Nat.ltb_lt. reflexivity.
  - repeat constructor; intros _; apply Nat.leb_le; reflexivity.
Defined.

End MoreSamples.
